(** * AllocatorLab: a chunked pool allocator and a singly linked container

    A shallow embedding of [my_allocator.h], [my_container.h] and the
    [factorial] function of the driver, and the properties of the two
    classes.  (The repository holds each header twice, with and without
    comments; the code is the same.)

    - [size_t] values are integers in [0, 2^64); every arithmetic operation
      of the source on them is written with its wrap-around ([wrap]).
    - A pointer is a byte address; [nullptr] is address 0.  Pointer
      arithmetic on a [T*] moves by [sizeof(T)] bytes per element.
    - Raw memory comes from the C++ runtime ([operator new]); the runtime
      heap is an explicit piece of state ([Heap]).
    - Constructed objects live in an object memory, a finite map from
      addresses to values.  [construct] puts an object there, [destroy]
      ends its lifetime; reading through a pointer to no live object is
      undefined behaviour.
    - Exceptions are explicit results carrying the state left behind.
      Destructors and [std::vector::push_back] are taken not to throw.
      A constructor left by an exception has the destructors of its
      members run.
    - Member functions take the object they work on as a value and return
      its new value; the two assignment operators, which compare addresses,
      work on the container objects of the program, named by address.

    The file has three parts: the code, the vocabulary of the properties
    (with the programs they are tried on), and the properties. *)

From Stdlib Require Import ZArith Lia.
From stdpp Require Import base option list gmap.

Local Open Scope Z_scope.

(** ** Machine integers, pointers, exceptions *)

Definition size_type := Z.

Definition SIZE_MOD : Z := 18446744073709551616.

(** Reduction of an unsigned 64-bit result. *)
Definition wrap (z : Z) : size_type := z mod SIZE_MOD.

(** The values a [size_t] argument can have. *)
Definition is_size (z : Z) : Prop := 0 ≤ z < SIZE_MOD.

Definition pointer := Z.

Definition nullptr : pointer := 0.

(** [std::bad_alloc], or any other exception, told apart by its payload. *)
Inductive exception :=
| bad_alloc
| user_exception (what : Z).

(** ** The runtime heap behind [operator new]

    The C++ runtime is not part of the repository.  It is modelled as a
    bump heap: [operator new(bytes)] either hands out the block starting at
    [heap_brk], which it then moves past the block, or fails
    ([std::bad_alloc]) when the block does not fit below [heap_end].  Blocks
    handed out are therefore pairwise disjoint. *)
Record Heap := { heap_brk : Z; heap_end : Z }.

Definition operator_new (h : Heap) (bytes : size_type) : option (pointer * Heap) :=
  if heap_brk h + Z.max bytes 1 <=? heap_end h
  then Some (heap_brk h,
             {| heap_brk := heap_brk h + Z.max bytes 1; heap_end := heap_end h |})
  else None.

(** The outcome of an allocation request on an allocator of type [A]: the
    storage, or an exception; both with the heap and the allocator left
    behind. *)
Inductive alloc_result (A : Type) :=
| Allocated (p : pointer) (h : Heap) (a : A)
| AllocThrows (e : exception) (h : Heap) (a : A).
Arguments Allocated {A} p h a.
Arguments AllocThrows {A} e h a.

(** The template arguments of [my_allocator<T, ChunkSize>], as far as the
    code looks at them: the chunk capacity and [sizeof(T)]. *)
Class TemplateArgs := { ChunkSize : size_type; sizeof_T : Z }.

(** ** my_allocator.h *)

Module MyAllocator.

Record Chunk := { data : pointer; size : size_type; used : size_type }.

Record my_allocator := { chunks_ : list Chunk }.

(** [my_allocator() noexcept = default] *)
Definition default_ctor : my_allocator := {| chunks_ := [] |}.

(** [template <typename U> my_allocator(const my_allocator<U, ChunkSize>&) {}]:
    the converting constructor starts with no chunk. *)
Definition converting_ctor (other : my_allocator) : my_allocator :=
  {| chunks_ := [] |}.

(** [my_allocator(const my_allocator&) = default]: the vector of chunk
    descriptors is copied, so the copy's chunks have the same [data]. *)
Definition copy_ctor (other : my_allocator) : my_allocator :=
  {| chunks_ := chunks_ other |}.

(** [chunk.used = v] *)
Definition set_used (chunk : Chunk) (v : size_type) : Chunk :=
  {| data := data chunk; size := size chunk; used := v |}.

(** [chunks_.back()] as an lvalue: [chunks_.back().used = v]. *)
Definition set_back_used (chunks : list Chunk) (v : size_type) : list Chunk :=
  alter (fun chunk => set_used chunk v) (Nat.pred (length chunks)) chunks.

(** [chunks_.back().data]; [back()] of an empty vector is undefined, it is
    never taken there. *)
Definition back_data (chunks : list Chunk) : pointer :=
  from_option data nullptr (last chunks).

Section Template.
Context {targs : TemplateArgs}.

(** [p + k] on a [T*]. *)
Definition ptr_add (p : pointer) (k : Z) : pointer := p + k * sizeof_T.

(** The loop of [allocate] over [chunks_]: the first chunk with room takes
    the request and the loop returns from inside. *)
Fixpoint allocate_scan (chunks : list Chunk) (n : size_type)
  : option (pointer * list Chunk) :=
  match chunks with
  | [] => None
  | chunk :: rest =>
      if n <=? wrap (size chunk - used chunk)
      then Some (ptr_add (data chunk) (used chunk),
                 set_used chunk (wrap (used chunk + n)) :: rest)
      else match allocate_scan rest n with
           | Some (result, rest') => Some (result, chunk :: rest')
           | None => None
           end
  end.

Definition allocate (h : Heap) (a : my_allocator) (n : size_type)
  : alloc_result my_allocator :=
  if n =? 0 then Allocated nullptr h a
  else
    match allocate_scan (chunks_ a) n with
    | Some (result, chunks') => Allocated result h {| chunks_ := chunks' |}
    | None =>
        let new_size := Z.max ChunkSize n in
        match operator_new h (wrap (new_size * sizeof_T)) with
        | None => AllocThrows bad_alloc h a
        | Some (new_memory, h') =>
            if new_memory =? nullptr then AllocThrows bad_alloc h' a
            else
              let pushed :=
                chunks_ a ++ [ {| data := new_memory; size := new_size; used := 0 |} ] in
              let result := back_data pushed in
              Allocated result h' {| chunks_ := set_back_used pushed n |}
        end
    end.

(** [deallocate] ignores both arguments. *)
Definition deallocate (h : Heap) (a : my_allocator) (p : pointer) (n : size_type)
  : Heap * my_allocator :=
  (h, a).

(** [max_size()] *)
Definition max_size : size_type := (SIZE_MOD - 1) / sizeof_T.

End Template.

(** [construct(p, args...)]: placement new.  [ctor] is the constructor of
    the object type selected by the arguments; it returns the object or
    throws.  Nothing of the allocator is read or written. *)
Definition construct {Obj Args : Type} (ctor : Args -> exception + Obj)
    (m : gmap Z Obj) (p : pointer) (args : Args) : exception + gmap Z Obj :=
  match ctor args with
  | inl e => inl e
  | inr o => inr (<[p := o]> m)
  end.

(** [destroy(p)]: the destructor call; undefined when no object lives at
    [p]. *)
Definition destroy {Obj : Type} (m : gmap Z Obj) (p : pointer) : option (gmap Z Obj) :=
  match m !! p with
  | Some _ => Some (delete p m)
  | None => None
  end.

(** [operator==] compares the addresses of the two allocator objects,
    [operator!=] negates it.  An allocator object is referred to by its
    address. *)
Definition operator_eq (this other : pointer) : bool := this =? other.

Definition operator_ne (this other : pointer) : bool := negb (operator_eq this other).

Section Teardown.
Context {targs : TemplateArgs} {Obj : Type}.

(** The inner loop of the destructor,
    [for (size_type i = 0; i < chunk.used; ++i) chunk.data[i].~T();],
    from index [i] with [rounds] rounds to go.  [None] is undefined
    behaviour: a destructor call where no element lives.  ([i] stays below
    [used], so [++i] never wraps.) *)
Fixpoint dtor_elements (m : gmap Z Obj) (chunk : Chunk) (i : size_type) (rounds : nat)
  : option (gmap Z Obj) :=
  match rounds with
  | O => Some m
  | S rounds' =>
      match destroy m (ptr_add (data chunk) i) with
      | None => None
      | Some m' => dtor_elements m' chunk (i + 1) rounds'
      end
  end.

(** The outer loop, [for (auto& chunk : chunks_)]: the elements of the
    chunk are destroyed, then [operator delete(chunk.data)] is called.  The
    result is the object memory left and the pointers passed to
    [operator delete], in call order. *)
Fixpoint dtor_chunks (m : gmap Z Obj) (chunks : list Chunk)
  : option (gmap Z Obj * list pointer) :=
  match chunks with
  | [] => Some (m, [])
  | chunk :: rest =>
      match dtor_elements m chunk 0 (Z.to_nat (used chunk)) with
      | None => None
      | Some m' =>
          match dtor_chunks m' rest with
          | None => None
          | Some (m'', deleted) => Some (m'', data chunk :: deleted)
          end
      end
  end.

(** [~my_allocator()] *)
Definition dtor (m : gmap Z Obj) (a : my_allocator) : option (gmap Z Obj * list pointer) :=
  dtor_chunks m (chunks_ a).

End Teardown.

End MyAllocator.

(** ** The allocator interface of the container

    [my_container<T, Allocator>] reaches its allocator through
    [std::allocator_traits] only.  These are the operations it uses, for a
    node allocator of type [A]. *)
Class Allocator (A : Type) := {
  (** [node_traits::allocate(a, n)] *)
  traits_allocate : Heap -> A -> size_type -> alloc_result A;
  (** [node_traits::deallocate(a, p, n)] *)
  traits_deallocate : Heap -> A -> pointer -> size_type -> Heap * A;
  (** [node_allocator_type()] *)
  traits_default : A;
  (** [node_allocator_type(alloc)] from the user's [Allocator] *)
  traits_convert : A -> A;
  (** [node_traits::select_on_container_copy_construction(a)] *)
  traits_select_on_container_copy_construction : A -> A;
  (** [allocator_ = other.allocator_]: the new value of [allocator_] *)
  traits_copy_assign : A -> A -> A;
  (** [node_allocator_type(std::move(a))]: the new allocator and what is
      left in [a] *)
  traits_move_construct : A -> A * A;
  (** [allocator_ = std::move(other.allocator_)]: the new value of
      [allocator_] and what is left in [other.allocator_] *)
  traits_move_assign : A -> A -> A * A;
  (** [~node_allocator_type()], run on an allocator for objects of type
      [Obj]: the objects left alive and the pointers passed to
      [operator delete]; [None] is undefined behaviour *)
  allocator_dtor : forall Obj : Type, gmap Z Obj -> A -> option (gmap Z Obj * list pointer);
}.

(** [my_allocator] declares a destructor and a copy constructor, so it has
    no move operations: moving copies.  It has no
    [select_on_container_copy_construction], so the traits copy it. *)
#[export] Instance my_allocator_traits {targs : TemplateArgs}
  : Allocator MyAllocator.my_allocator := {|
  traits_allocate := MyAllocator.allocate;
  traits_deallocate := MyAllocator.deallocate;
  traits_default := MyAllocator.default_ctor;
  traits_convert := MyAllocator.converting_ctor;
  traits_select_on_container_copy_construction := MyAllocator.copy_ctor;
  traits_copy_assign := fun _ other => MyAllocator.copy_ctor other;
  traits_move_construct := fun a => (MyAllocator.copy_ctor a, a);
  traits_move_assign := fun _ other => (MyAllocator.copy_ctor other, other);
  allocator_dtor := fun Obj => MyAllocator.dtor (Obj := Obj);
|}.

(** What the container needs to know of its element type: whether copying
    a value throws.  A copy that does not throw is the value. *)
Class ElementType (T : Type) := { T_copy_throws : T -> option exception }.

(** ** my_container.h *)

Module MyContainer.

Record Node (T : Type) := { data : T; next : pointer }.
Arguments data {T} _.
Arguments next {T} _.

Record my_container (A : Type) :=
  { head_ : pointer; tail_ : pointer; size_ : size_type; allocator_ : A }.
Arguments head_ {A} _.
Arguments tail_ {A} _.
Arguments size_ {A} _.
Arguments allocator_ {A} _.

(** The state outside the container object: the runtime heap and the
    nodes alive in memory. *)
Record State (T : Type) := { heap : Heap; mem : gmap Z (Node T) }.
Arguments heap {T} _.
Arguments mem {T} _.

(** How a member function ends.  [X] is what the function works on: one
    container, or the container objects of the program.  [OutOfFuel]
    stands for a loop cut off by the model. *)
Inductive outcome (T X : Type) :=
| Returns (s : State T) (x : X)
| Throws (e : exception) (s : State T) (x : X)
| Undefined
| OutOfFuel.
Arguments Returns {T X} s x.
Arguments Throws {T X} e s x.
Arguments Undefined {T X}.
Arguments OutOfFuel {T X}.

Record iterator := { current_ : pointer }.

Section Template.
Context {T : Type} {elt : ElementType T} {A : Type} {traits : Allocator A}.

(** The copy constructor of [T]. *)
Definition T_copy (value : T) : exception + T :=
  match T_copy_throws value with
  | Some e => inl e
  | None => inr value
  end.

(** [Node(Args&&... args) : data(args...), next(nullptr)] *)
Definition Node_ctor {Args : Type} (T_ctor : Args -> exception + T) (args : Args)
  : exception + Node T :=
  match T_ctor args with
  | inl e => inl e
  | inr d => inr {| data := d; next := nullptr |}
  end.

(** [p->next = q] *)
Definition set_next (m : gmap Z (Node T)) (p q : pointer) : option (gmap Z (Node T)) :=
  match m !! p with
  | Some nd => Some (<[p := {| data := data nd; next := q |}]> m)
  | None => None
  end.

(** [my_container()] *)
Definition default_ctor : my_container A :=
  {| head_ := nullptr; tail_ := nullptr; size_ := 0; allocator_ := traits_default |}.

(** [explicit my_container(const Allocator& alloc)] *)
Definition alloc_ctor (alloc : A) : my_container A :=
  {| head_ := nullptr; tail_ := nullptr; size_ := 0; allocator_ := traits_convert alloc |}.

(** The part of [push_back] and [emplace_back] after the node is
    constructed: link it and count it. *)
Definition link_back (h : Heap) (m : gmap Z (Node T)) (c : my_container A) (a : A)
    (new_node : pointer) : outcome T (my_container A) :=
  if head_ c =? nullptr
  then Returns {| heap := h; mem := m |}
         {| head_ := new_node; tail_ := new_node;
            size_ := wrap (size_ c + 1); allocator_ := a |}
  else
    match set_next m (tail_ c) new_node with
    | None => Undefined
    | Some m' =>
        Returns {| heap := h; mem := m' |}
          {| head_ := head_ c; tail_ := new_node;
             size_ := wrap (size_ c + 1); allocator_ := a |}
    end.

Definition emplace_back {Args : Type} (T_ctor : Args -> exception + T)
    (s : State T) (c : my_container A) (args : Args) : outcome T (my_container A) :=
  match traits_allocate (heap s) (allocator_ c) 1 with
  | AllocThrows e h a =>
      Throws e {| heap := h; mem := mem s |}
        {| head_ := head_ c; tail_ := tail_ c; size_ := size_ c; allocator_ := a |}
  | Allocated new_node h a =>
      match MyAllocator.construct (Node_ctor T_ctor) (mem s) new_node args with
      | inl e =>
          let '(h', a') := traits_deallocate h a new_node 1 in
          Throws e {| heap := h'; mem := mem s |}
            {| head_ := head_ c; tail_ := tail_ c; size_ := size_ c; allocator_ := a' |}
      | inr m => link_back h m c a new_node
      end
  end.

Definition push_back (s : State T) (c : my_container A) (value : T)
  : outcome T (my_container A) :=
  match traits_allocate (heap s) (allocator_ c) 1 with
  | AllocThrows e h a =>
      Throws e {| heap := h; mem := mem s |}
        {| head_ := head_ c; tail_ := tail_ c; size_ := size_ c; allocator_ := a |}
  | Allocated new_node h a =>
      match MyAllocator.construct (Node_ctor T_copy) (mem s) new_node value with
      | inl e =>
          let '(h', a') := traits_deallocate h a new_node 1 in
          Throws e {| heap := h'; mem := mem s |}
            {| head_ := head_ c; tail_ := tail_ c; size_ := size_ c; allocator_ := a' |}
      | inr m => link_back h m c a new_node
      end
  end.

(** The [while (head_)] loop of [clear].  Every round ends the lifetime of
    one node, so [fuel] above the number of live nodes is never used up. *)
Fixpoint clear_loop (fuel : nat) (h : Heap) (m : gmap Z (Node T)) (a : A)
    (head : pointer) : outcome T (my_container A) :=
  if head =? nullptr
  then Returns {| heap := h; mem := m |}
         {| head_ := nullptr; tail_ := nullptr; size_ := 0; allocator_ := a |}
  else
    match fuel with
    | O => OutOfFuel
    | S fuel' =>
        match m !! head with
        | None => Undefined
        | Some nd =>
            let next_ := next nd in
            match MyAllocator.destroy m head with
            | None => Undefined
            | Some m' =>
                let '(h', a') := traits_deallocate h a head 1 in
                clear_loop fuel' h' m' a' next_
            end
        end
    end.

Definition clear (s : State T) (c : my_container A) : outcome T (my_container A) :=
  clear_loop (S (base.size (mem s))) (heap s) (mem s) (allocator_ c) (head_ c).

Definition size (c : my_container A) : size_type := size_ c.

Definition empty (c : my_container A) : bool := size_ c =? 0.

Definition begin_ (c : my_container A) : iterator := {| current_ := head_ c |}.

Definition end_ (c : my_container A) : iterator := {| current_ := nullptr |}.

(** [*it] *)
Definition iterator_deref (m : gmap Z (Node T)) (it : iterator) : option T :=
  data <$> m !! current_ it.

(** [++it] *)
Definition iterator_incr (m : gmap Z (Node T)) (it : iterator) : option iterator :=
  (fun nd => {| current_ := next nd |}) <$> m !! current_ it.

Definition iterator_eq (it other : iterator) : bool := current_ it =? current_ other.

Definition iterator_ne (it other : iterator) : bool := negb (iterator_eq it other).

(** The loop [for (it = first; it != last; ++it)] with the values [operator*] yields in it.
    [None] is undefined behaviour, [Some None] a traversal cut off. *)
Fixpoint traverse (fuel : nat) (m : gmap Z (Node T)) (first last : iterator)
  : option (option (list T)) :=
  if iterator_ne first last
  then
    match fuel with
    | O => Some None
    | S fuel' =>
        match iterator_deref m first, iterator_incr m first with
        | Some v, Some first' =>
            match traverse fuel' m first' last with
            | Some (Some vs) => Some (Some (v :: vs))
            | r => r
            end
        | _, _ => None
        end
    end
  else Some (Some []).

(** [for (const auto& item : other) push_back(item)], run on [c]. *)
Fixpoint push_back_range (fuel : nat) (s : State T) (c : my_container A)
    (it last : iterator) : outcome T (my_container A) :=
  if iterator_ne it last
  then
    match fuel with
    | O => OutOfFuel
    | S fuel' =>
        match iterator_deref (mem s) it with
        | None => Undefined
        | Some item =>
            match push_back s c item with
            | Returns s' c' =>
                match iterator_incr (mem s') it with
                | None => Undefined
                | Some it' => push_back_range fuel' s' c' it' last
                end
            | r => r
            end
        end
    end
  else Returns s c.

(** A sequence of [push_back] calls, one per value, that stops at the first
    call that does not return; the loop
    [for (const auto& item : init) push_back(item)] of the constructor
    [my_container(std::initializer_list<T> init, const Allocator& alloc)]. *)
Fixpoint push_back_list (s : State T) (c : my_container A) (init : list T)
  : outcome T (my_container A) :=
  match init with
  | [] => Returns s c
  | item :: init' =>
      match push_back s c item with
      | Returns s' c' => push_back_list s' c' init'
      | r => r
      end
  end.

(** A constructor whose body is left by an exception: the object never
    comes to be, and its members, which were constructed before the body
    ran, are destroyed.  Of the members of [my_container] only
    [allocator_] has a destructor.  (The outcome carries the members as
    they were at the throw.  The blocks given back to the runtime are not
    recorded: the runtime heap of the model never hands a block out
    again.) *)
Definition ctor_unwind (r : outcome T (my_container A)) : outcome T (my_container A) :=
  match r with
  | Throws e s c =>
      match allocator_dtor (Node T) (mem s) (allocator_ c) with
      | Some (m, _) => Throws e {| heap := heap s; mem := m |} c
      | None => Undefined
      end
  | r => r
  end.

(** [my_container(std::initializer_list<T> init, const Allocator& alloc)] *)
Definition init_list_ctor (s : State T) (init : list T) (alloc : A)
  : outcome T (my_container A) :=
  ctor_unwind (push_back_list s (alloc_ctor alloc) init).

(** [my_container(const my_container& other)] *)
Definition copy_ctor (fuel : nat) (s : State T) (other : my_container A)
  : outcome T (my_container A) :=
  ctor_unwind
    (push_back_range fuel s
       {| head_ := nullptr; tail_ := nullptr; size_ := 0;
          allocator_ := traits_select_on_container_copy_construction (allocator_ other) |}
       (begin_ other) (end_ other)).

(** [my_container(my_container&& other) noexcept]: the new container and
    what is left of [other]. *)
Definition move_ctor (other : my_container A) : my_container A * my_container A :=
  let '(a, a_other) := traits_move_construct (allocator_ other) in
  ({| head_ := head_ other; tail_ := tail_ other; size_ := size_ other; allocator_ := a |},
   {| head_ := nullptr; tail_ := nullptr; size_ := 0; allocator_ := a_other |}).


Definition move_assign (s : State T) (objs : gmap Z (my_container A))
    (this other : pointer) : outcome T (gmap Z (my_container A)) :=
  if negb (this =? other)
  then
    match objs !! this, objs !! other with
    | Some c, Some o =>
        match clear s c with
        | Returns s1 c1 =>
            let '(a, a_other) := traits_move_assign (allocator_ c1) (allocator_ o) in
            Returns s1
              (<[other := {| head_ := nullptr; tail_ := nullptr; size_ := 0;
                             allocator_ := a_other |}]>
                 (<[this := {| head_ := head_ o; tail_ := tail_ o; size_ := size_ o;
                               allocator_ := a |}]> objs))
        | Throws e s1 c1 => Throws e s1 (<[this := c1]> objs)
        | Undefined => Undefined
        | OutOfFuel => OutOfFuel
        end
    | _, _ => Undefined
    end
  else Returns s objs.

End Template.

(** [it++]: the iterator returned (the old position) and the iterator
    afterwards. *)
Definition iterator_post_incr {T : Type} (m : gmap Z (Node T)) (it : iterator)
  : option (iterator * iterator) :=
  let tmp := it in
  match iterator_incr m it with
  | Some it' => Some (tmp, it')
  | None => None
  end.

(** [~my_container()] of [my_container<T, my_allocator<T, ChunkSize>>]: the
    body calls [clear()], then the member [allocator_] is destroyed.  The
    result is the nodes left alive and the pointers passed to
    [operator delete]; [None] is undefined behaviour. *)
Definition pool_dtor {targs : TemplateArgs} {T : Type} {elt : ElementType T}
    (s : State T) (c : my_container MyAllocator.my_allocator)
  : option (gmap Z (Node T) * list pointer) :=
  match clear s c with
  | Returns s' c' => MyAllocator.dtor (mem s') (allocator_ c')
  | _ => None
  end.

End MyContainer.

(** ** main.cpp: [factorial]

    The repository has the driver twice: once with
    [long long factorial(int n)], once with [int factorial(int n)].  Both
    run [for (int i = 2; i <= n; ++i) result *= i;] on [result = 1]; a
    signed product that does not fit its type is undefined behaviour. *)

Module Main.

Definition INT_MAX : Z := 2147483647.

Definition LLONG_MAX : Z := 9223372036854775807.

(** The loop from [i] on, with [rounds] rounds to go, in a result type
    whose largest value is [result_max].  [None] is signed overflow. *)
Fixpoint factorial_loop (result_max : Z) (rounds : nat) (i : Z) (result : Z)
  : option Z :=
  match rounds with
  | O => Some result
  | S rounds' =>
      let result' := result * i in
      if result' <=? result_max
      then factorial_loop result_max rounds' (i + 1) result'
      else None
  end.

(** The loop runs for [i = 2, ..., n]: [n - 1] rounds, none when [n < 2]. *)
Definition factorial_ll (n : Z) : option Z :=
  factorial_loop LLONG_MAX (Z.to_nat (n - 1)) 2 1.

Definition factorial_int (n : Z) : option Z :=
  factorial_loop INT_MAX (Z.to_nat (n - 1)) 2 1.

End Main.

(** * Specification vocabulary

    The notions the properties below are stated with, and the programs they
    are tried on. *)

Section AllocatorSpec.
Import MyAllocator.
Context {targs : TemplateArgs}.

(** A chunk never uses more than it has, and its capacity is a [size_t]. *)
Definition chunk_ok (c : Chunk) : Prop := 0 ≤ used c ≤ size c ∧ size c < SIZE_MOD.

(** The free room of a chunk, as an integer. *)
Definition room (c : Chunk) : Z := size c - used c.

(** The template arguments make sense: elements have a size, and a chunk
    of [ChunkSize] elements has a byte size that is a [size_t]. *)
Definition targs_ok : Prop :=
  0 < sizeof_T < SIZE_MOD ∧ 0 ≤ ChunkSize ∧ ChunkSize * sizeof_T < SIZE_MOD.

(** The address of element slot [i] of a chunk. *)
Definition slot (c : Chunk) (i : Z) : pointer := data c + i * sizeof_T.

(** The storage an allocator has handed out: the slots below [used]. *)
Definition handed (a : my_allocator) (p : pointer) : Prop :=
  ∃ c i, c ∈ chunks_ a ∧ 0 ≤ i < used c ∧ p = slot c i.

(** The addresses within the capacity of a chunk of the allocator. *)
Definition inside (a : my_allocator) (q : pointer) : Prop :=
  ∃ c, c ∈ chunks_ a ∧ data c ≤ q < slot c (size c).

(** The storage the allocator can still hand out holds no object: every
    object alive in [m] is in a slot handed out, or lies outside the
    chunks and outside the part of the heap the runtime has yet to give. *)
Definition storage_free {Obj : Type} (h : Heap) (m : gmap Z Obj) (a : my_allocator)
  : Prop :=
  ∀ q, is_Some (m !! q) →
    handed a q ∨ (¬ inside a q ∧ ¬ (heap_brk h ≤ q < heap_end h)).

(** The chunks lie one after the other, in creation order, between [lo] and
    [hi]. *)
Fixpoint laid_out (lo : Z) (cs : list Chunk) (hi : Z) : Prop :=
  match cs with
  | [] => lo ≤ hi
  | c :: rest => lo ≤ data c ∧ laid_out (data c + size c * sizeof_T) rest hi
  end.

(** The allocator is in order with respect to the runtime heap: chunks are
    in order and lie, in creation order, in the part of the heap already
    handed out by [operator new]. *)
Definition alloc_inv (h : Heap) (a : my_allocator) : Prop :=
  Forall chunk_ok (chunks_ a) ∧ laid_out 1 (chunks_ a) (heap_brk h).

(** No request lowers a used count, changes a base or a capacity, or drops
    a chunk. *)
Definition chunks_grow (cs cs' : list Chunk) : Prop :=
  (length cs ≤ length cs')%nat
  ∧ ∀ (i : nat) c, cs !! i = Some c →
      ∃ c', cs' !! i = Some c' ∧ data c' = data c ∧ size c' = size c ∧ used c ≤ used c'.

(** A client that sends the requests one after the other and stops at the
    first exception: the pointers it got, and the state left. *)
Fixpoint serve (h : Heap) (a : my_allocator) (requests : list size_type)
  : option (list pointer * Heap * my_allocator) :=
  match requests with
  | [] => Some ([], h, a)
  | n :: rest =>
      match allocate h a n with
      | Allocated p h' a' =>
          match serve h' a' rest with
          | Some (ps, h'', a'') => Some (p :: ps, h'', a'')
          | None => None
          end
      | AllocThrows _ _ _ => None
      end
  end.

(** ** The states an allocator and its clients reach

    The states of one allocator object that is used without being copied.
    (A copy of a [my_allocator] has the chunks of its source, see
    [MyAllocator.copy_ctor]; what holds of an allocator below does not
    hold of one whose copy is in use as well.) *)

Section Reachability.
Context {Obj : Type}.

(** An allocator for elements of type [Obj], the runtime heap below it and
    the elements its clients have alive. *)
Record AState := { a_heap : Heap; a_objs : gmap Z Obj; a_alloc : my_allocator }.

(** One operation on the allocator or of a client: [allocate], returning
    or throwing, [deallocate], a client constructing an element, a client
    destroying one.  Requests stay within [max_size()], and clients
    construct elements only in storage the allocator handed out. *)
Inductive step : AState → AState → Prop :=
| step_allocate s n p h' a' :
    0 ≤ n ≤ max_size →
    allocate (a_heap s) (a_alloc s) n = Allocated p h' a' →
    step s {| a_heap := h'; a_objs := a_objs s; a_alloc := a' |}
| step_allocate_throws s n e h' a' :
    0 ≤ n ≤ max_size →
    allocate (a_heap s) (a_alloc s) n = AllocThrows e h' a' →
    step s {| a_heap := h'; a_objs := a_objs s; a_alloc := a' |}
| step_deallocate s p n :
    step s {| a_heap := (deallocate (a_heap s) (a_alloc s) p n).1;
              a_objs := a_objs s;
              a_alloc := (deallocate (a_heap s) (a_alloc s) p n).2 |}
| step_construct s p o :
    handed (a_alloc s) p →
    step s {| a_heap := a_heap s; a_objs := <[p := o]> (a_objs s); a_alloc := a_alloc s |}
| step_destroy s p m' :
    destroy (a_objs s) p = Some m' →
    step s {| a_heap := a_heap s; a_objs := m'; a_alloc := a_alloc s |}.

(** The states reached from a freshly constructed allocator. *)
Inductive reachable : AState → Prop :=
| reachable_init h :
    0 < heap_brk h →
    reachable {| a_heap := h; a_objs := ∅; a_alloc := default_ctor |}
| reachable_step s s' : reachable s → step s s' → reachable s'.

(** What holds in all of them: the allocator is in order, and every live
    element is in storage that was handed out. *)
Definition state_inv (s : AState) : Prop :=
  alloc_inv (a_heap s) (a_alloc s)
  ∧ ∀ p, is_Some (a_objs s !! p) → handed (a_alloc s) p.

End Reachability.

End AllocatorSpec.

Arguments AState : clear implicits.

(** ** What the container asks of an allocator *)

(** What the container relies on in its allocator, for requests of one
    node: the allocator stays in order with respect to the heap
    ([alloc_ok]), the storage it returns is not null and is not storage it
    has handed out and not got back ([alloc_handed]), and getting one
    address back does not touch the others. *)
Class LawfulAllocator (A : Type) `{Allocator A} := {
  alloc_ok : Heap → A → Prop;
  alloc_handed : A → pointer → Prop;
  allocate_lawful h a p h' a' :
    alloc_ok h a → traits_allocate h a 1 = Allocated p h' a' →
    alloc_ok h' a' ∧ p ≠ nullptr ∧ ¬ alloc_handed a p ∧ alloc_handed a' p
    ∧ ∀ q, alloc_handed a q → alloc_handed a' q;
  allocate_throws_lawful h a e h' a' :
    alloc_ok h a → traits_allocate h a 1 = AllocThrows e h' a' →
    alloc_ok h' a' ∧ ∀ q, alloc_handed a q → alloc_handed a' q;
  deallocate_lawful h a p :
    alloc_ok h a →
    alloc_ok (traits_deallocate h a p 1).1 (traits_deallocate h a p 1).2
    ∧ ∀ q, alloc_handed a q → q ≠ p → alloc_handed (traits_deallocate h a p 1).2 q;
}.

Section ContainerSpec.
Import MyContainer.
Context {T : Type} {A : Type} {traits : Allocator A} {laws : LawfulAllocator A}.

(** The nodes of a list, as cells (address, value) in link order: [p]
    points to the first one, every node links to the next one, the last one
    links to nothing. *)
Fixpoint chain (m : gmap Z (Node T)) (p : pointer) (cells : list (pointer * T)) : Prop :=
  match cells with
  | [] => p = nullptr
  | cell :: rest =>
      p = cell.1 ∧ cell.1 ≠ nullptr
      ∧ ∃ nxt, m !! cell.1 = Some {| data := cell.2; next := nxt |} ∧ chain m nxt rest
  end.

(** The address of the last cell, [nullptr] when there is none. *)
Definition back_addr (cells : list (pointer * T)) : pointer :=
  from_option fst nullptr (last cells).

(** The container [c] holds exactly the cells [cells], in state [s]. *)
Definition represents (s : State T) (c : my_container A) (cells : list (pointer * T))
  : Prop :=
  chain (mem s) (head_ c) cells
  ∧ NoDup cells.*1
  ∧ tail_ c = back_addr cells
  ∧ size_ c = Z.of_nat (length cells)
  ∧ Forall (alloc_handed (allocator_ c)) cells.*1
  ∧ alloc_ok (heap s) (allocator_ c).

(** What an append on a container holding [cells] may end in, given what
    the element's constructor does ([made]).  On return the element was
    constructed, the size is one more and the container holds the old cells
    followed by the new one, which [tail_] points to.  On an exception
    [head_], [tail_], [size_] and the nodes are as before, and either the
    allocator threw, or the constructor threw this very exception after
    storage was taken, and the storage went through [deallocate]. *)
Definition appended (s : State T) (c : my_container A) (cells : list (pointer * T))
    (made : exception + T) (r : outcome T (my_container A)) : Prop :=
  match r with
  | Returns s' c' =>
      ∃ d, made = inr d
        ∧ size_ c' = size_ c + 1
        ∧ represents s' c' (cells ++ [(tail_ c', d)])
  | Throws e s' c' =>
      head_ c' = head_ c ∧ tail_ c' = tail_ c ∧ size_ c' = size_ c
      ∧ mem s' = mem s
      ∧ represents s' c' cells
      ∧ ((∃ h a, traits_allocate (heap s) (allocator_ c) 1 = AllocThrows e h a
                 ∧ heap s' = h ∧ allocator_ c' = a)
         ∨ (∃ new_node h a,
               traits_allocate (heap s) (allocator_ c) 1 = Allocated new_node h a
               ∧ made = inl e
               ∧ (heap s', allocator_ c') = traits_deallocate h a new_node 1))
  | Undefined | OutOfFuel => False
  end.

(** Following [next] links [k] times from [p]. *)
Fixpoint follow (m : gmap Z (Node T)) (p : pointer) (k : nat) : option pointer :=
  match k with
  | O => Some p
  | S k' =>
      match m !! p with
      | Some nd => follow m (next nd) k'
      | None => None
      end
  end.

(** The invariant of the container handle: [size_] is 0 exactly when
    [head_] and [tail_] are both null; with elements, the node at [tail_]
    links to nothing, and [size_ - 1] links lead from [head_] to [tail_]. *)
Definition handle_inv (s : State T) (c : my_container A) : Prop :=
  (size_ c = 0 ↔ head_ c = nullptr ∧ tail_ c = nullptr)
  ∧ (0 < size_ c →
     next <$> mem s !! tail_ c = Some nullptr
     ∧ follow (mem s) (head_ c) (Z.to_nat (size_ c - 1)) = Some (tail_ c)).

(** The states a container reaches when it is used alone: from an empty
    container with its allocator in order, by [push_back], [emplace_back]
    and [clear] on this container, returning or throwing, and nothing else
    touching its nodes or its allocator. *)
Inductive used_alone {elt : ElementType T} : State T → my_container A → Prop :=
| alone_empty s c : represents s c [] → used_alone s c
| alone_push_back s c value s' c' :
    used_alone s c → size_ c + 1 < SIZE_MOD →
    push_back s c value = Returns s' c' → used_alone s' c'
| alone_push_back_throws s c value e s' c' :
    used_alone s c → size_ c + 1 < SIZE_MOD →
    push_back s c value = Throws e s' c' → used_alone s' c'
| alone_emplace_back (Args : Type) (T_ctor : Args → exception + T) s c args s' c' :
    used_alone s c → size_ c + 1 < SIZE_MOD →
    emplace_back T_ctor s c args = Returns s' c' → used_alone s' c'
| alone_emplace_back_throws (Args : Type) (T_ctor : Args → exception + T)
    s c args e s' c' :
    used_alone s c → size_ c + 1 < SIZE_MOD →
    emplace_back T_ctor s c args = Throws e s' c' → used_alone s' c'
| alone_clear s c s' c' :
    used_alone s c → clear s c = Returns s' c' → used_alone s' c'.

End ContainerSpec.

(** ** Appends to a container over the pool *)

Section PoolSpec.
Import MyContainer.
Context {targs : TemplateArgs} {T : Type}.

(** What appends to a container that holds [cells] leave outside it, from
    state [s] and allocator [a] to state [s'] and allocator [a'], the nodes
    made being [new]: storage that can still be handed out holds no
    object; the allocator has handed out the slots of the new nodes and no
    other; these slots held nothing before; no object but the container's
    own nodes is written, and none is destroyed. *)
Definition extended (s : State T) (a : MyAllocator.my_allocator)
    (cells : list (pointer * T)) (s' : State T) (a' : MyAllocator.my_allocator)
    (new : list (pointer * T)) : Prop :=
  storage_free (heap s') (mem s') a'
  ∧ (∀ q, handed a' q ↔ handed a q ∨ q ∈ new.*1)
  ∧ (∀ q, q ∈ new.*1 → mem s !! q = None)
  ∧ (∀ q, q ∉ cells.*1 → q ∉ new.*1 → mem s' !! q = mem s !! q)
  ∧ (∀ q, is_Some (mem s !! q) → is_Some (mem s' !! q)).

End PoolSpec.

(** ** Programs *)

(** A pool of [int]s, [my_allocator<int, 10>]: 4 bytes an element. *)
Definition int_pool : TemplateArgs := {| ChunkSize := 10; sizeof_T := 4 |}.

(** The state right after the first request for one element. *)
Definition after_first_request : AState Z :=
  {| a_heap := {| heap_brk := 4136; heap_end := 8192 |};
     a_objs := ∅;
     a_alloc :=
       {| MyAllocator.chunks_ :=
            [ {| MyAllocator.data := 4096; MyAllocator.size := 10;
                 MyAllocator.used := 1 |} ] |} |}.


(** The node allocator of [my_container<int, my_allocator<int, 10>>]: its
    elements are nodes, an [int] and a pointer, 16 bytes. *)
Definition node_pool : TemplateArgs := {| ChunkSize := 10; sizeof_T := 16 |}.

(** [int]: copying never throws. *)
Definition plain_int : ElementType Z := {| T_copy_throws := fun _ => None |}.

(** An element type whose constructors refuse negative values, throwing
    the value. *)
Definition checked_int : ElementType Z :=
  {| T_copy_throws := fun v => if v <? 0 then Some (user_exception v) else None |}.

Definition checked_int_ctor (v : Z) : exception + Z :=
  if v <? 0 then inl (user_exception v) else inr v.

Definition int_container : Type := MyContainer.my_container MyAllocator.my_allocator.

(** A program start: a runtime heap with 4096 bytes to give, no node alive,
    and a default-constructed container. *)
Definition start_state : MyContainer.State Z :=
  {| MyContainer.heap := {| heap_brk := 4096; heap_end := 8192 |};
     MyContainer.mem := ∅ |}.

Definition start_container : int_container :=
  MyContainer.default_ctor (traits := my_allocator_traits (targs := node_pool)).

(** [a.push_back(1); my_container b(a); a.push_back(2); a.push_back(3);]
    with the state at the end, [a] and [b]. *)
Definition copy_then_push : option (MyContainer.State Z * int_container * int_container) :=
  let push := MyContainer.push_back (elt := plain_int)
                (traits := my_allocator_traits (targs := node_pool)) in
  match push start_state start_container 1 with
  | MyContainer.Returns s1 a1 =>
      match MyContainer.copy_ctor (elt := plain_int)
              (traits := my_allocator_traits (targs := node_pool)) 8 s1 a1 with
      | MyContainer.Returns s2 b =>
          match push s2 a1 2 with
          | MyContainer.Returns s3 a2 =>
              match push s3 a2 3 with
              | MyContainer.Returns s4 a3 => Some (s4, a3, b)
              | _ => None
              end
          | _ => None
          end
      | _ => None
      end
  | _ => None
  end.

(** The program state after [a.push_back(1)] at the program start, and
    the container [a] then. *)
Definition one_node_state : MyContainer.State Z :=
  {| MyContainer.heap := {| heap_brk := 4256; heap_end := 8192 |};
     MyContainer.mem :=
       {[ 4096 := {| MyContainer.data := 1; MyContainer.next := nullptr |} ]} |}.

Definition one_node_container : int_container :=
  {| MyContainer.head_ := 4096; MyContainer.tail_ := 4096; MyContainer.size_ := 1;
     MyContainer.allocator_ :=
       {| MyAllocator.chunks_ :=
            [ {| MyAllocator.data := 4096; MyAllocator.size := 10;
                 MyAllocator.used := 1 |} ] |} |}.

(** Two container objects of a program: an empty one at address 100 and
    the one above at address 200. *)
Definition two_containers : gmap Z int_container :=
  {[ 100 := start_container; 200 := one_node_container ]}.

(** ** Chunks filled by single requests *)

Section FillSpec.
Context {targs : TemplateArgs}.

(** The bytes by which the runtime heap moves for one chunk of [ChunkSize]
    elements. *)
Definition chunk_bytes : Z := Z.max (wrap (ChunkSize * sizeof_T)) 1.

(** [m] full chunks of [ChunkSize] elements, one after the other from
    [base]. *)
Fixpoint full_chunks (base : pointer) (m : nat) : list MyAllocator.Chunk :=
  match m with
  | O => []
  | S m' =>
      full_chunks base m'
      ++ [ {| MyAllocator.data := base + Z.of_nat m' * chunk_bytes;
              MyAllocator.size := ChunkSize; MyAllocator.used := ChunkSize |} ]
  end.

(** The heap after [m] chunks were taken from [h]. *)
Definition heap_after (h : Heap) (m : nat) : Heap :=
  {| heap_brk := heap_brk h + Z.of_nat m * chunk_bytes; heap_end := heap_end h |}.

End FillSpec.

(** ** Factorials *)

(** [k!] as an integer. *)
Fixpoint zfact (k : nat) : Z :=
  match k with
  | O => 1
  | S k' => Z.of_nat k * zfact k'
  end.

(** * Properties of the allocator *)

Section AllocatorFacts.
Import MyAllocator.
Context {targs : TemplateArgs}.

Lemma wrap_small z : 0 ≤ z < SIZE_MOD → wrap z = z.
Proof. intros Hz. unfold wrap. apply Z.mod_small. exact Hz. Qed.

Lemma wrap_room c : chunk_ok c → wrap (size c - used c) = room c.
Proof. intros [Hu Hs]. unfold room. apply wrap_small. lia. Qed.

Lemma set_back_used_snoc cs c v : set_back_used (cs ++ [c]) v = cs ++ [set_used c v].
Proof.
  unfold set_back_used. rewrite length_app. simpl.
  replace (Nat.pred (length cs + 1)) with (length cs + 0)%nat by lia.
  rewrite alter_app_r. reflexivity.
Qed.

Lemma back_data_snoc cs c : back_data (cs ++ [c]) = data c.
Proof. unfold back_data. rewrite last_snoc. reflexivity. Qed.

(** The scan finds nothing exactly when no chunk has room. *)
Lemma allocate_scan_none cs n :
  Forall chunk_ok cs →
  allocate_scan cs n = None ↔ ∀ c, c ∈ cs → room c < n.
Proof.
  induction cs as [|c cs IH]; intros Hok; simpl.
  - split; [intros _ c Hc; inversion Hc | reflexivity].
  - inversion Hok as [|? ? Hc Hcs]; subst. rewrite (wrap_room c Hc).
    destruct (Z.leb_spec n (room c)) as [Hle|Hlt].
    + split; [discriminate|]. intros Hall.
      specialize (Hall c (list_elem_of_here _ _)). lia.
    + specialize (IH Hcs). destruct (allocate_scan cs n) as [[p cs']|] eqn:Hrec.
      * split; [discriminate|]. intros Hall. exfalso.
        enough (Some (p, cs') = None) by discriminate.
        apply IH. intros c' Hc'. apply Hall. by apply list_elem_of_further.
      * split; [|reflexivity]. intros _ c' Hc'.
        apply elem_of_cons in Hc' as [->|Hc']; [exact Hlt|].
        by apply IH.
Qed.

(** The scan takes the first chunk with room and touches only that one. *)
Lemma allocate_scan_first cs n (i : nat) c :
  Forall chunk_ok cs → 0 < n →
  cs !! i = Some c → n ≤ room c →
  (∀ (j : nat) c', (j < i)%nat → cs !! j = Some c' → room c' < n) →
  allocate_scan cs n
  = Some (data c + used c * sizeof_T, <[i := set_used c (used c + n)]> cs).
Proof.
  revert i. induction cs as [|c0 cs IH]; intros i Hok Hn Hi Hroom Hfirst.
  - discriminate.
  - inversion Hok as [|? ? Hc0 Hcs]; subst. simpl.
    rewrite (wrap_room c0 Hc0). destruct i as [|i]; simpl in Hi.
    + injection Hi as ->. rewrite (proj2 (Z.leb_le _ _) Hroom). simpl.
      unfold ptr_add. rewrite wrap_small; [reflexivity|].
      destruct Hc0 as [? ?]. unfold room in Hroom. lia.
    + assert (Hlt : room c0 < n) by (apply (Hfirst 0%nat c0); [lia|reflexivity]).
      rewrite (proj2 (Z.leb_gt _ _) Hlt).
      rewrite (IH i Hcs Hn Hi Hroom); [reflexivity|].
      intros j c' Hj Hc'. apply (Hfirst (S j) c'); [lia|exact Hc'].
Qed.

(** What a successful scan did, read off its result. *)
Lemma allocate_scan_some cs n p cs' :
  Forall chunk_ok cs → 0 < n →
  allocate_scan cs n = Some (p, cs') →
  ∃ (i : nat) c, cs !! i = Some c ∧ n ≤ room c
    ∧ (∀ (j : nat) c', (j < i)%nat → cs !! j = Some c' → room c' < n)
    ∧ p = data c + used c * sizeof_T
    ∧ cs' = <[i := set_used c (used c + n)]> cs.
Proof.
  revert p cs'. induction cs as [|c0 cs IH]; intros p cs' Hok Hn Hscan.
  - discriminate.
  - inversion Hok as [|? ? Hc0 Hcs]; subst. simpl in Hscan.
    rewrite (wrap_room c0 Hc0) in Hscan.
    destruct (Z.leb_spec n (room c0)) as [Hle|Hlt].
    + injection Hscan as <- <-. exists 0%nat, c0.
      split; [reflexivity|]. split; [exact Hle|]. split; [intros j c' Hj; lia|].
      unfold ptr_add. split; [reflexivity|]. simpl.
      rewrite wrap_small; [reflexivity|].
      destruct Hc0 as [? ?]. unfold room in Hle. lia.
    + destruct (allocate_scan cs n) as [[q cs1]|] eqn:Hrec; [|discriminate].
      injection Hscan as <- <-.
      destruct (IH q cs1 Hcs Hn eq_refl) as (i & c & Hi & Hroom & Hfirst & Hq & Hcs1).
      exists (S i), c. split; [exact Hi|]. split; [exact Hroom|].
      split; [|split; [exact Hq|simpl; by rewrite Hcs1]].
      intros [|j] c' Hj Hc'; simpl in Hc'.
      * injection Hc' as <-. exact Hlt.
      * apply (Hfirst j c'); [lia|exact Hc'].
Qed.

(** When no chunk has room, [allocate] asks the runtime for one chunk. *)
Lemma allocate_new_chunk h a n :
  Forall chunk_ok (chunks_ a) → 0 < n →
  (∀ c, c ∈ chunks_ a → room c < n) →
  allocate h a n =
    match operator_new h (wrap (Z.max ChunkSize n * sizeof_T)) with
    | None => AllocThrows bad_alloc h a
    | Some (base, h') =>
        if base =? nullptr then AllocThrows bad_alloc h' a
        else Allocated base h'
               {| chunks_ := chunks_ a
                    ++ [ {| data := base; size := Z.max ChunkSize n; used := n |} ] |}
    end.
Proof.
  intros Hok Hn Hnone. unfold allocate.
  rewrite (proj2 (Z.eqb_neq n 0)) by lia.
  rewrite (proj2 (allocate_scan_none _ n Hok) Hnone).
  destruct (operator_new h _) as [[base h']|]; [|reflexivity].
  destruct (base =? nullptr); [reflexivity|].
  rewrite set_back_used_snoc, back_data_snoc. reflexivity.
Qed.

(** C1.  For every request [allocate(n)] with [n > 0] on an allocator whose
    chunks are in order ([used <= size]): the chunks are scanned in
    creation order and the first one whose capacity minus used is at least
    [n] is taken; the address returned is its base plus its used count
    (in elements of [T]), and its used count grows by exactly [n], nothing
    else changing.  When no chunk fits, the runtime is asked for
    [max(ChunkSize, n)] elements: if it refuses, [std::bad_alloc] is raised
    and nothing changes; otherwise a chunk of that capacity with used
    count [n] is appended after the existing ones and its base is
    returned. *)
Theorem allocate_first_fit_or_new_chunk h a n :
  0 < n < SIZE_MOD →
  Forall chunk_ok (chunks_ a) →
  (∀ (i : nat) c,
      chunks_ a !! i = Some c →
      n ≤ size c - used c →
      (∀ (j : nat) c', (j < i)%nat → chunks_ a !! j = Some c' → size c' - used c' < n) →
      allocate h a n
      = Allocated (data c + used c * sizeof_T) h
          {| chunks_ :=
               <[i := {| data := data c; size := size c; used := used c + n |}]>
                 (chunks_ a) |})
  ∧ ((∀ c, c ∈ chunks_ a → size c - used c < n) →
     (operator_new h (wrap (Z.max ChunkSize n * sizeof_T)) = None →
      allocate h a n = AllocThrows bad_alloc h a)
     ∧ (∀ base h',
          operator_new h (wrap (Z.max ChunkSize n * sizeof_T)) = Some (base, h') →
          base ≠ nullptr →
          allocate h a n
          = Allocated base h'
              {| chunks_ :=
                   chunks_ a
                   ++ [ {| data := base; size := Z.max ChunkSize n; used := n |} ] |})).
Proof.
  intros [Hn Hn'] Hok. split.
  - intros i c Hi Hroom Hfirst. unfold allocate.
    rewrite (proj2 (Z.eqb_neq n 0)) by lia.
    rewrite (allocate_scan_first _ n i c Hok Hn Hi Hroom Hfirst). reflexivity.
  - intros Hnone. rewrite (allocate_new_chunk h a n Hok Hn Hnone). split.
    + intros ->. reflexivity.
    + intros base h' -> Hbase.
      rewrite (proj2 (Z.eqb_neq base nullptr) Hbase). reflexivity.
Qed.

(** ** Where the chunks lie *)

Lemma slot_bounds c i :
  0 < sizeof_T → 0 ≤ i < size c →
  data c ≤ slot c i ∧ slot c i + sizeof_T ≤ data c + size c * sizeof_T.
Proof. intros Hs Hi. unfold slot. nia. Qed.

Lemma slot_inj c i j : 0 < sizeof_T → slot c i = slot c j → i = j.
Proof. intros Hs. unfold slot. nia. Qed.

Lemma laid_out_le lo cs hi :
  0 < sizeof_T → Forall chunk_ok cs → laid_out lo cs hi → lo ≤ hi.
Proof.
  intros Hs. revert lo. induction cs as [|c cs IH]; intros lo Hok; simpl; [done|].
  inversion Hok as [|? ? [Hc _] Hcs]; subst. intros [Hlo Hrest].
  specialize (IH _ Hcs Hrest). nia.
Qed.

Lemma laid_out_mono lo cs hi hi' :
  laid_out lo cs hi → hi ≤ hi' → laid_out lo cs hi'.
Proof.
  revert lo. induction cs as [|c cs IH]; intros lo; simpl; [lia|].
  intros [Hlo Hrest] Hhi. split; [exact Hlo|]. by apply IH.
Qed.

Lemma laid_out_snoc lo cs hi c :
  0 < sizeof_T → Forall chunk_ok cs →
  laid_out lo cs hi → hi ≤ data c →
  laid_out lo (cs ++ [c]) (data c + size c * sizeof_T).
Proof.
  intros Hs. revert lo. induction cs as [|c0 cs IH]; intros lo Hok; simpl.
  - intros Hlo Hhi. split; lia.
  - inversion Hok as [|? ? _ Hcs]; subst. intros [Hlo Hrest] Hhi.
    split; [exact Hlo|]. by apply IH.
Qed.

Lemma laid_out_set_used lo cs hi (i : nat) c v :
  cs !! i = Some c → laid_out lo cs hi → laid_out lo (<[i := set_used c v]> cs) hi.
Proof.
  revert lo i. induction cs as [|c0 cs IH]; intros lo i Hi; [discriminate|].
  destruct i as [|i]; simpl in *.
  - injection Hi as ->. done.
  - intros [Hlo Hrest]. split; [exact Hlo|]. by apply IH.
Qed.

(** Every chunk lies inside [lo, hi). *)
Lemma laid_out_inside lo cs hi c :
  0 < sizeof_T → Forall chunk_ok cs → laid_out lo cs hi → c ∈ cs →
  lo ≤ data c ∧ data c + size c * sizeof_T ≤ hi.
Proof.
  intros Hs. revert lo. induction cs as [|c0 cs IH]; intros lo Hok Hlay Hc.
  - inversion Hc.
  - inversion Hok as [|? ? [Hc0 _] Hcs]; subst. destruct Hlay as [Hlo Hrest].
    apply elem_of_cons in Hc as [->|Hc].
    + split; [exact Hlo|]. by apply (laid_out_le _ cs).
    + destruct (IH _ Hcs Hrest Hc) as [H1 H2]. split; [nia|exact H2].
Qed.

(** Slots of chunks at different places of the sequence are different
    addresses; slots within capacity of one chunk are told apart by their
    index. *)
Lemma laid_out_slots_apart lo cs hi (i j : nat) c c' k k' :
  0 < sizeof_T → Forall chunk_ok cs → laid_out lo cs hi →
  cs !! i = Some c → cs !! j = Some c' →
  0 ≤ k < size c → 0 ≤ k' < size c' →
  slot c k = slot c' k' → i = j ∧ k = k'.
Proof.
  intros Hs. revert lo i j.
  induction cs as [|c0 cs IH]; intros lo i j Hok Hlay Hi Hj Hk Hk' Heq; [discriminate|].
  inversion Hok as [|? ? Hc0 Hcs]; subst. destruct Hlay as [Hlo Hrest].
  destruct i as [|i], j as [|j]; simpl in Hi, Hj.
  - injection Hi as ->. injection Hj as ->. split; [done|]. by apply (slot_inj c').
  - injection Hi as ->. exfalso.
    apply list_elem_of_lookup_2 in Hj.
    destruct (laid_out_inside _ _ _ _ Hs Hcs Hrest Hj) as [H1 _].
    pose proof (slot_bounds c k Hs Hk). pose proof (slot_bounds c' k' Hs Hk'). lia.
  - injection Hj as ->. exfalso.
    apply list_elem_of_lookup_2 in Hi.
    destruct (laid_out_inside _ _ _ _ Hs Hcs Hrest Hi) as [H1 _].
    pose proof (slot_bounds c k Hs Hk). pose proof (slot_bounds c' k' Hs Hk'). lia.
  - destruct (IH _ i j Hcs Hrest Hi Hj Hk Hk' Heq) as [-> ->]. done.
Qed.

Lemma alloc_inv_heap_mono h h' a :
  alloc_inv h a → heap_brk h ≤ heap_brk h' → alloc_inv h' a.
Proof. intros [Hok Hlay] Hle. split; [exact Hok|]. by apply (laid_out_mono _ _ (heap_brk h)). Qed.

Lemma alloc_inv_default h : 0 < heap_brk h → alloc_inv h default_ctor.
Proof. intros Hh. split; [constructor|]. simpl. lia. Qed.

Lemma handed_nonnull h a p : 0 < sizeof_T → alloc_inv h a → handed a p → p ≠ nullptr.
Proof.
  intros Hs [Hok Hlay] (c & i & Hc & Hi & ->).
  destruct (proj1 (Forall_forall _ _) Hok c Hc) as [Hu _].
  destruct (laid_out_inside _ _ _ _ Hs Hok Hlay Hc) as [H1 _].
  pose proof (slot_bounds c i Hs ltac:(lia)). unfold nullptr. lia.
Qed.

Lemma operator_new_spec h bytes p h' :
  operator_new h bytes = Some (p, h') →
  p = heap_brk h ∧ heap_brk h' = heap_brk h + Z.max bytes 1
  ∧ heap_end h' = heap_end h ∧ heap_brk h' ≤ heap_end h.
Proof.
  unfold operator_new. destruct (Z.leb_spec (heap_brk h + Z.max bytes 1) (heap_end h));
    [|discriminate].
  intros [= <- <-]. simpl. lia.
Qed.

(** A request within [max_size()] keeps the allocator in order, and the
    heap only grows. *)
Lemma allocate_inv h a n p h' a' :
  targs_ok → 0 < n ≤ max_size →
  alloc_inv h a → allocate h a n = Allocated p h' a' →
  alloc_inv h' a' ∧ heap_brk h ≤ heap_brk h'.
Proof.
  intros ([Hs Hs'] & HC0 & HC) [Hn Hmax] [Hok Hlay] Halloc.
  assert (Hbytes : n * sizeof_T < SIZE_MOD).
  { unfold max_size in Hmax.
    pose proof (Z.mul_div_le (SIZE_MOD - 1) sizeof_T Hs). nia. }
  assert (Hn' : n < SIZE_MOD) by nia.
  unfold allocate in Halloc. rewrite (proj2 (Z.eqb_neq n 0)) in Halloc by lia.
  destruct (allocate_scan (chunks_ a) n) as [[q cs']|] eqn:Hscan.
  - injection Halloc as <- <- <-.
    destruct (allocate_scan_some _ _ _ _ Hok Hn Hscan) as (i & c & Hi & Hroom & _ & _ & ->).
    split; [|lia]. split; simpl.
    + apply Forall_insert; [exact Hok|].
      destruct (proj1 (Forall_forall _ _) Hok c (list_elem_of_lookup_2 _ _ _ Hi)) as [Hu Hsz].
      unfold chunk_ok, room in *. simpl. lia.
    + by apply laid_out_set_used.
  - destruct (operator_new h _) as [[base h1]|] eqn:Hnew; [|discriminate].
    destruct (base =? nullptr); [discriminate|].
    injection Halloc as <- <- <-.
    rewrite set_back_used_snoc. unfold set_used. simpl.
    apply operator_new_spec in Hnew as (-> & Hbrk & _ & _).
    assert (Hsz : 0 ≤ Z.max ChunkSize n * sizeof_T < SIZE_MOD) by nia.
    rewrite (wrap_small _ Hsz) in Hbrk.
    split; [|lia]. split; simpl.
    + apply Forall_app. split; [exact Hok|]. constructor; [|constructor].
      unfold chunk_ok. simpl. nia.
    + set (c := {| data := heap_brk h; size := Z.max ChunkSize n; used := n |}).
      apply (laid_out_mono _ _ (data c + size c * sizeof_T)); [|simpl; lia].
      apply (laid_out_snoc _ _ (heap_brk h)); [exact Hs|exact Hok|exact Hlay|simpl; lia].
Qed.

(** The storage a request returns, all [n] elements of it, had not been
    handed out before and is handed out afterwards; nothing handed out
    earlier is taken back. *)
Lemma allocate_fresh h a n p h' a' :
  targs_ok → 0 < n ≤ max_size →
  alloc_inv h a → allocate h a n = Allocated p h' a' →
  p ≠ nullptr
  ∧ (∀ k, 0 ≤ k < n →
       ¬ handed a (p + k * sizeof_T) ∧ handed a' (p + k * sizeof_T))
  ∧ (∀ q, handed a q → handed a' q).
Proof.
  intros ([Hs Hs'] & HC0 & HC) [Hn Hmax] [Hok Hlay] Halloc.
  unfold allocate in Halloc. rewrite (proj2 (Z.eqb_neq n 0)) in Halloc by lia.
  destruct (allocate_scan (chunks_ a) n) as [[q cs']|] eqn:Hscan.
  - injection Halloc as <- <- <-.
    destruct (allocate_scan_some _ _ _ _ Hok Hn Hscan)
      as (i & c & Hi & Hroom & _ & -> & ->).
    pose proof (list_elem_of_lookup_2 _ _ _ Hi) as Hc.
    destruct (proj1 (Forall_forall _ _) Hok c Hc) as [Hu Hsz].
    destruct (laid_out_inside _ _ _ _ Hs Hok Hlay Hc) as [Hlo _].
    unfold room in Hroom.
    assert (Hin : 0 ≤ used c < size c) by lia.
    pose proof (slot_bounds c (used c) Hs Hin) as Hb. fold (slot c (used c)).
    assert (Hupd : set_used c (used c + n)
                   ∈ chunks_ {| chunks_ := <[i := set_used c (used c + n)]> (chunks_ a) |}).
    { apply (list_elem_of_lookup_2 _ i). apply list_lookup_insert_eq.
      by apply lookup_lt_Some in Hi. }
    split; [unfold nullptr; lia|]. split.
    + intros k Hk.
      assert (Hslot : slot c (used c) + k * sizeof_T = slot c (used c + k))
        by (unfold slot; lia).
      rewrite Hslot. split.
      * intros (c' & k' & Hc' & Hk' & Heq).
        apply list_elem_of_lookup_1 in Hc' as [j Hj].
        destruct (proj1 (Forall_forall _ _) Hok c' (list_elem_of_lookup_2 _ _ _ Hj))
          as [Hu' _].
        assert (Hin1 : 0 ≤ used c + k < size c) by lia.
        assert (Hin2 : 0 ≤ k' < size c') by lia.
        destruct (laid_out_slots_apart _ _ _ i j c c' (used c + k) k' Hs Hok Hlay Hi Hj
                    Hin1 Hin2 Heq) as [-> Hkk].
        rewrite Hi in Hj. injection Hj as <-. lia.
      * exists (set_used c (used c + n)), (used c + k).
        split; [exact Hupd|]. simpl. split; [lia|reflexivity].
    + intros q0 (c' & k & Hc' & Hk & ->).
      apply list_elem_of_lookup_1 in Hc' as [j Hj]. destruct (decide (j = i)) as [->|Hne].
      * rewrite Hi in Hj. injection Hj as <-.
        exists (set_used c (used c + n)), k.
        split; [exact Hupd|]. simpl. split; [lia|reflexivity].
      * exists c', k. split; [|done].
        apply (list_elem_of_lookup_2 _ j). simpl. by rewrite list_lookup_insert_ne.
  - destruct (operator_new h _) as [[base h1]|] eqn:Hnew; [|discriminate].
    destruct (Z.eqb_spec base nullptr) as [|Hbase]; [discriminate|].
    injection Halloc as <- <- <-.
    rewrite set_back_used_snoc, back_data_snoc. unfold set_used. simpl.
    apply operator_new_spec in Hnew as (-> & _).
    split; [exact Hbase|]. split.
    + intros k Hk. split.
      * intros (c' & k' & Hc' & Hk' & Heq).
        destruct (proj1 (Forall_forall _ _) Hok c' Hc') as [Hu' _].
        destruct (laid_out_inside _ _ _ _ Hs Hok Hlay Hc') as [_ Hhi].
        pose proof (slot_bounds c' k' Hs ltac:(lia)). nia.
      * eexists _, k. split; [apply elem_of_app; right; apply list_elem_of_singleton;
                              reflexivity|].
        simpl. split; [lia|reflexivity].
    + intros q0 (c' & k & Hc' & Hk & ->). exists c', k.
      split; [|done]. apply elem_of_app. by left.
Qed.

(** The first element of the storage returned, in particular. *)
Lemma allocate_fresh_first h a n p h' a' :
  targs_ok → 0 < n ≤ max_size →
  alloc_inv h a → allocate h a n = Allocated p h' a' →
  p ≠ nullptr ∧ ¬ handed a p ∧ handed a' p ∧ (∀ q, handed a q → handed a' q).
Proof.
  intros Htargs Hn Hinv Halloc.
  destruct (allocate_fresh h a n p h' a' Htargs Hn Hinv Halloc) as (Hp & Hblock & Hkeep).
  destruct (Hblock 0 ltac:(lia)) as [H1 H2].
  rewrite Z.mul_0_l, Z.add_0_r in H1, H2. done.
Qed.

Lemma allocate_zero h a : allocate h a 0 = Allocated nullptr h a.
Proof. reflexivity. Qed.

(** A request that throws leaves the chunks alone. *)
Lemma allocate_throws h a n e h' a' :
  allocate h a n = AllocThrows e h' a' →
  e = bad_alloc ∧ a' = a ∧ heap_brk h ≤ heap_brk h'.
Proof.
  unfold allocate. destruct (n =? 0); [discriminate|].
  destruct (allocate_scan (chunks_ a) n) as [[q cs']|]; [discriminate|].
  destruct (operator_new h _) as [[base h1]|] eqn:Hnew.
  - destruct (base =? nullptr); [|discriminate].
    intros [= <- <- <-]. apply operator_new_spec in Hnew as (_ & Hbrk & _).
    split; [done|]. split; [done|]. lia.
  - intros [= <- <- <-]. split; [done|]. split; [done|]. lia.
Qed.

(** ** Requests for one element, as the container sends them *)

Lemma not_live {Obj : Type} (m : gmap Z Obj) (q : pointer) :
  m !! q = None → ¬ is_Some (m !! q).
Proof. intros Hnone [x Hx]. rewrite Hnone in Hx. discriminate. Qed.

(** A request for one element hands out exactly one more slot, the one
    returned. *)
Lemma allocate_one_handed h a p h' a' :
  targs_ok → alloc_inv h a → allocate h a 1 = Allocated p h' a' →
  ∀ q, handed a' q ↔ handed a q ∨ q = p.
Proof.
  intros Htargs Hinv Halloc q.
  assert (Hone : 0 < 1 ≤ max_size).
  { destruct Htargs as ([Hs Hs'] & _). split; [lia|]. unfold max_size.
    apply Z.div_le_lower_bound; lia. }
  destruct (allocate_fresh_first h a 1 p h' a' Htargs Hone Hinv Halloc)
    as (_ & _ & Hnow & Hkeep).
  split; [|intros [Hq| ->]; [by apply Hkeep|done]].
  destruct Hinv as [Hok Hlay]. unfold allocate in Halloc. simpl in Halloc.
  destruct (allocate_scan (chunks_ a) 1) as [[p0 cs']|] eqn:Hscan.
  - injection Halloc as <- <- <-.
    destruct (allocate_scan_some (chunks_ a) 1 _ _ Hok ltac:(lia) Hscan)
      as (i & c & Hi & _ & _ & -> & ->).
    intros (c' & k & Hc' & Hk & ->). simpl in Hc'.
    apply list_elem_of_lookup_1 in Hc' as [j Hj].
    destruct (decide (j = i)) as [->|Hne].
    + rewrite list_lookup_insert_eq in Hj by (by apply lookup_lt_Some in Hi).
      injection Hj as <-. simpl in Hk.
      destruct (decide (k = used c)) as [->|Hku].
      * right. reflexivity.
      * left. exists c, k. split; [by apply (list_elem_of_lookup_2 _ i)|].
        split; [lia|reflexivity].
    + rewrite list_lookup_insert_ne in Hj by done. left. exists c', k.
      split; [by apply (list_elem_of_lookup_2 _ j)|done].
  - destruct (operator_new h _) as [[base h1]|] eqn:Hnew; [|discriminate].
    destruct (base =? nullptr); [discriminate|].
    injection Halloc as <- <- <-.
    rewrite set_back_used_snoc, back_data_snoc. unfold set_used. simpl.
    intros (c' & k & Hc' & Hk & ->). simpl in Hc'.
    apply elem_of_app in Hc' as [Hc'|Hc'].
    + left. by exists c', k.
    + apply list_elem_of_singleton in Hc' as ->. simpl in Hk. right.
      assert (k = 0) as -> by lia. unfold slot. simpl. lia.
Qed.

(** It is served from inside a chunk or from the heap the runtime had yet
    to give, and the allocator's chunks grow into that part of the heap
    only. *)
Lemma allocate_one_inside h a p h' a' :
  targs_ok → alloc_inv h a → allocate h a 1 = Allocated p h' a' →
  heap_brk h ≤ heap_brk h' ∧ heap_end h' = heap_end h
  ∧ (inside a p ∨ heap_brk h ≤ p < heap_end h)
  ∧ ∀ q, inside a' q → inside a q ∨ heap_brk h ≤ q < heap_end h.
Proof.
  intros ([Hs Hs'] & HC0 & HC) [Hok Hlay] Halloc.
  unfold allocate in Halloc. simpl in Halloc.
  destruct (allocate_scan (chunks_ a) 1) as [[p0 cs']|] eqn:Hscan.
  - injection Halloc as <- <- <-.
    destruct (allocate_scan_some (chunks_ a) 1 _ _ Hok ltac:(lia) Hscan)
      as (i & c & Hi & Hroom & _ & -> & ->).
    pose proof (list_elem_of_lookup_2 _ _ _ Hi) as Hc.
    destruct (proj1 (Forall_forall _ _) Hok c Hc) as [Hu Hsz].
    unfold room in Hroom.
    split; [lia|]. split; [done|]. split.
    + left. exists c. split; [done|]. unfold slot. nia.
    + intros q (c' & Hc' & Hq). simpl in Hc'.
      apply list_elem_of_lookup_1 in Hc' as [j Hj].
      destruct (decide (j = i)) as [->|Hne].
      * rewrite list_lookup_insert_eq in Hj by (by apply lookup_lt_Some in Hi).
        injection Hj as <-. left. by exists c.
      * rewrite list_lookup_insert_ne in Hj by done. left. exists c'.
        split; [by apply (list_elem_of_lookup_2 _ j)|done].
  - destruct (operator_new h _) as [[base h1]|] eqn:Hnew; [|discriminate].
    destruct (base =? nullptr); [discriminate|].
    injection Halloc as <- <- <-.
    rewrite set_back_used_snoc, back_data_snoc. unfold set_used. simpl.
    apply operator_new_spec in Hnew as (-> & Hbrk & Hend & Hfit).
    assert (Hsz : 0 ≤ Z.max ChunkSize 1 * sizeof_T < SIZE_MOD) by nia.
    rewrite (wrap_small _ Hsz) in Hbrk.
    split; [lia|]. split; [done|]. split; [right; lia|].
    intros q (c' & Hc' & Hq). simpl in Hc'.
    apply elem_of_app in Hc' as [Hc'|Hc'].
    + left. by exists c'.
    + apply list_elem_of_singleton in Hc' as ->. unfold slot in Hq. simpl in Hq.
      right. lia.
Qed.

(** It throws only when no chunk has room and the runtime cannot supply a
    new chunk; nothing has changed then. *)
Lemma allocate_one_throws h a e h' a' :
  0 < sizeof_T → alloc_inv h a → allocate h a 1 = AllocThrows e h' a' →
  e = bad_alloc ∧ h' = h ∧ a' = a
  ∧ operator_new h (wrap (Z.max ChunkSize 1 * sizeof_T)) = None.
Proof.
  intros Hs [Hok Hlay]. unfold allocate. simpl.
  destruct (allocate_scan (chunks_ a) 1) as [[q cs']|]; [discriminate|].
  destruct (operator_new h _) as [[base h1]|] eqn:Hnew.
  - destruct (Z.eqb_spec base nullptr) as [Hnull|]; [|discriminate].
    apply operator_new_spec in Hnew as (-> & _).
    pose proof (laid_out_le _ _ _ Hs Hok Hlay). unfold nullptr in Hnull. lia.
  - by intros [= <- <- <-].
Qed.

(** Where storage that can still be handed out holds no object, the slot
    returned holds none, and this stays so when an object is put there. *)
Lemma allocate_one_free {Obj : Type} h (m : gmap Z Obj) a p h' a' :
  targs_ok → alloc_inv h a → storage_free h m a →
  allocate h a 1 = Allocated p h' a' →
  m !! p = None
  ∧ ∀ m' : gmap Z Obj, (∀ q, q ≠ p → is_Some (m' !! q) → is_Some (m !! q)) →
      storage_free h' m' a'.
Proof.
  intros Htargs Hinv Hfree Halloc.
  assert (Hone : 0 < 1 ≤ max_size).
  { destruct Htargs as ([Hs Hs'] & _). split; [lia|]. unfold max_size.
    apply Z.div_le_lower_bound; lia. }
  destruct (allocate_fresh_first h a 1 p h' a' Htargs Hone Hinv Halloc)
    as (_ & Hfresh & Hnow & Hkeep).
  destruct (allocate_one_inside h a p h' a' Htargs Hinv Halloc)
    as (Hbrk & Hend & Hp & Hin).
  split.
  - destruct (m !! p) as [o|] eqn:Hlive; [exfalso|done].
    destruct (Hfree p ltac:(by eexists)) as [Hh|[Hout Hheap]]; [done|].
    destruct Hp as [Hp|Hp]; [by apply Hout|by apply Hheap].
  - intros m' Hm' q Hq. destruct (decide (q = p)) as [->|Hne]; [by left|].
    destruct (Hfree q (Hm' q Hne Hq)) as [Hh|[Hout Hheap]]; [left; by apply Hkeep|].
    right. split.
    + intros Hq'. destruct (Hin q Hq') as [Hx|Hx]; [by apply Hout|by apply Hheap].
    + rewrite Hend. lia.
Qed.

(** With room in the first chunk, the first chunk serves the request. *)
Lemma allocate_head_fits h c rest n :
  chunk_ok c → 0 < n ≤ room c →
  allocate h {| chunks_ := c :: rest |} n
  = Allocated (slot c (used c)) h {| chunks_ := set_used c (used c + n) :: rest |}.
Proof.
  intros Hc [Hn Hroom]. unfold allocate. rewrite (proj2 (Z.eqb_neq n 0)) by lia.
  simpl. rewrite (wrap_room c Hc), (proj2 (Z.leb_le _ _) Hroom).
  rewrite wrap_small; [reflexivity|].
  destruct Hc as [? ?]. unfold room in Hroom. lia.
Qed.

Lemma chunks_grow_refl cs : chunks_grow cs cs.
Proof. split; [lia|]. intros i c Hi. exists c. split; [exact Hi|]. lia. Qed.

Lemma allocate_chunks_grow h a n p h' a' :
  0 ≤ n → Forall chunk_ok (chunks_ a) →
  allocate h a n = Allocated p h' a' → chunks_grow (chunks_ a) (chunks_ a').
Proof.
  intros Hn Hok. unfold allocate. destruct (Z.eqb_spec n 0) as [->|Hn0].
  - intros [= <- <- <-]. apply chunks_grow_refl.
  - destruct (allocate_scan (chunks_ a) n) as [[q cs']|] eqn:Hscan.
    + intros [= <- <- <-]. simpl.
      assert (Hpos : 0 < n) by lia.
      destruct (allocate_scan_some _ _ _ _ Hok Hpos Hscan)
        as (i & c & Hi & Hroom & _ & _ & ->).
      split; [by rewrite length_insert|]. intros j c' Hj.
      destruct (decide (j = i)) as [->|Hne].
      * rewrite Hi in Hj. injection Hj as <-. eexists. split.
        { apply list_lookup_insert_eq. by apply lookup_lt_Some in Hi. }
        simpl. lia.
      * exists c'. rewrite list_lookup_insert_ne by done. split; [exact Hj|]. lia.
    + destruct (operator_new h _) as [[base h1]|]; [|discriminate].
      destruct (base =? nullptr); [discriminate|]. intros [= <- <- <-].
      rewrite set_back_used_snoc. simpl. split; [rewrite length_app; lia|].
      intros i c Hi. exists c. split; [|lia]. by apply lookup_app_l_Some.
Qed.

(** C5.  [deallocate(p, n)] is a no-op for every pointer and count: it
    returns (it cannot fail) with the heap and the whole allocator state
    exactly as they were.  Space inside chunks is never taken back: the
    only operation that writes [chunks_], [allocate], keeps every chunk at
    its place with its base and capacity and never lowers a used count,
    whether it returns or throws. *)
Theorem deallocate_is_noop :
  (∀ h a p n, deallocate h a p n = (h, a))
  ∧ (∀ h a n p h' a',
       is_size n → Forall chunk_ok (chunks_ a) →
       allocate h a n = Allocated p h' a' → chunks_grow (chunks_ a) (chunks_ a'))
  ∧ (∀ h a n e h' a', allocate h a n = AllocThrows e h' a' → a' = a).
Proof.
  split; [reflexivity|]. split.
  - intros h a n p h' a' [Hn _] Hok Halloc. by apply (allocate_chunks_grow h a n p h').
  - intros h a n e h' a' Halloc. by destruct (allocate_throws _ _ _ _ _ _ Halloc) as (_ & ? & _).
Qed.

(** C8.  Allocator objects are named by their addresses.  [a == b] holds
    exactly when [a] and [b] are the same object, whatever the two objects
    hold; [a != b] is its negation; an allocator equals itself; and two
    distinct objects that are both default-constructed (so equal as values)
    compare unequal. *)
Theorem allocator_equality_is_identity (objects : gmap Z my_allocator) (a b : pointer) :
  (operator_eq a b = true ↔ a = b)
  ∧ operator_ne a b = negb (operator_eq a b)
  ∧ operator_eq a a = true
  ∧ (objects !! a = Some default_ctor ∧ objects !! b = Some default_ctor ∧ a ≠ b →
     operator_eq a b = false ∧ operator_ne a b = true).
Proof.
  unfold operator_ne, operator_eq. split; [apply Z.eqb_eq|]. split; [reflexivity|].
  split; [apply Z.eqb_refl|]. intros (_ & _ & Hne).
  by rewrite (proj2 (Z.eqb_neq a b) Hne).
Qed.

(** Single-element requests fill the first chunk before anything else
    happens. *)
Lemma serve_fill_head h c rest (k : nat) :
  chunk_ok c → Z.of_nat k ≤ room c →
  ∃ ps, serve h {| chunks_ := c :: rest |} (replicate k 1)
        = Some (ps, h, {| chunks_ := set_used c (used c + Z.of_nat k) :: rest |})
        ∧ length ps = k.
Proof.
  revert c. induction k as [|k IH]; intros c Hc Hroom.
  - exists []. simpl. split; [|done]. destruct c as [d sz u]. unfold set_used. simpl.
    by rewrite Z.add_0_r.
  - simpl replicate. cbn [serve].
    rewrite allocate_head_fits by (try done; lia).
    destruct (IH (set_used c (used c + 1))) as (ps & -> & Hlen).
    + destruct Hc as [? ?]. unfold chunk_ok, room in *. simpl. lia.
    + unfold room in *. simpl. lia.
    + exists (slot c (used c) :: ps). split; [|simpl; by rewrite Hlen].
      unfold set_used. cbn [data size used].
      replace (used c + Z.of_nat (S k)) with (used c + 1 + Z.of_nat k) by lia.
      reflexivity.
Qed.

Lemma serve_app h a l ps h' a' l' ps' h'' a'' :
  serve h a l = Some (ps, h', a') →
  serve h' a' l' = Some (ps', h'', a'') →
  serve h a (l ++ l') = Some (ps ++ ps', h'', a'').
Proof.
  revert h a ps. induction l as [|n l IH]; intros h a ps H1 H2.
  - injection H1 as <- <- <-. exact H2.
  - cbn [serve app] in *. destruct (allocate h a n) as [p hh aa|]; [|discriminate].
    destruct (serve hh aa l) as [[[ps0 hh'] aa']|] eqn:Hl; [|discriminate].
    injection H1 as <- <- <-. by rewrite (IH _ _ _ Hl H2).
Qed.

Lemma max_size_pos : targs_ok → 0 < 1 ≤ max_size.
Proof.
  intros ([Hs Hs'] & _). split; [lia|]. unfold max_size.
  apply Z.div_le_lower_bound; lia.
Qed.

(** ** What holds in every reachable state *)

Section Reachability.
Context {Obj : Type}.

Lemma step_state_inv (s s' : AState Obj) : targs_ok → state_inv s → step s s' → state_inv s'.
Proof.
  intros Htargs [Hinv Hlive] Hstep. destruct Hstep as
    [s n p h' a' [Hn Hmax] Halloc | s n e h' a' _ Halloc | s p n | s p o Hp | s p m' Hd];
    simpl.
  - destruct (decide (n = 0)) as [->|Hn0].
    + rewrite allocate_zero in Halloc. injection Halloc as <- <- <-. by split.
    + assert (Hpos : 0 < n ≤ max_size) by lia.
      destruct (allocate_inv _ _ _ _ _ _ Htargs Hpos Hinv Halloc) as [Hinv' _].
      destruct (allocate_fresh _ _ _ _ _ _ Htargs Hpos Hinv Halloc) as (_ & _ & Hkeep).
      split; [exact Hinv'|]. intros q Hq. by apply Hkeep, Hlive.
  - destruct (allocate_throws _ _ _ _ _ _ Halloc) as (_ & -> & Hbrk).
    split; [by apply (alloc_inv_heap_mono (a_heap s))|exact Hlive].
  - by split.
  - split; [exact Hinv|]. intros q Hq. simpl in Hq.
    destruct (decide (q = p)) as [->|Hne]; [exact Hp|].
    rewrite lookup_insert_ne in Hq by done. by apply Hlive.
  - split; [exact Hinv|]. intros q Hq. simpl in Hq. unfold destroy in Hd.
    destruct (a_objs s !! p); [|discriminate]. injection Hd as <-.
    apply Hlive. destruct (decide (q = p)) as [->|Hne].
    + rewrite lookup_delete_eq in Hq. by destruct Hq.
    + by rewrite lookup_delete_ne in Hq.
Qed.

Lemma reachable_state_inv (s : AState Obj) : targs_ok → reachable s → state_inv s.
Proof.
  intros Htargs Hreach. induction Hreach as [h Hh|s s' _ IH Hstep].
  - split; [by apply alloc_inv_default|]. simpl. intros p Hp.
    rewrite lookup_empty in Hp. by destruct Hp.
  - by apply (step_state_inv s).
Qed.


(** X2.  Storage returned by [allocate] never aliases storage in use.  For
    template arguments that make sense ([sizeof(T) > 0], and a chunk of
    [ChunkSize] elements has a byte size below 2^64), in every state that
    an allocator which is not copied reaches, none of the [n] elements of
    the block that a request within [max_size()] returns had been handed
    out before, and none holds a live element. *)
Theorem allocate_never_aliases (s : AState Obj) n p h' a' :
  targs_ok → reachable s → 0 < n ≤ max_size →
  allocate (a_heap s) (a_alloc s) n = Allocated p h' a' →
  ∀ k, 0 ≤ k < n →
    ¬ handed (a_alloc s) (p + k * sizeof_T) ∧ a_objs s !! (p + k * sizeof_T) = None.
Proof.
  intros Htargs Hreach Hn Halloc k Hk.
  destruct (reachable_state_inv s Htargs Hreach) as [Hinv Hlive].
  destruct (allocate_fresh _ _ _ _ _ _ Htargs Hn Hinv Halloc) as (_ & Hblock & _).
  destruct (Hblock k Hk) as [Hfresh _]. split; [exact Hfresh|].
  destruct (a_objs s !! (p + k * sizeof_T)) eqn:Hobj; [|done].
  exfalso. apply Hfresh, Hlive. by eexists.
Qed.

End Reachability.

End AllocatorFacts.

(** C4.  With chunk capacity 10, whatever the element size, and a runtime
    that still has room for two chunks: eleven requests for one element,
    sent to a freshly constructed allocator, all succeed and leave exactly
    two chunks, the first with 10 of its 10 slots used, the second with 1
    of 10. *)
Theorem eleven_requests_make_two_chunks (elem_size : Z) (h : Heap) :
  0 < heap_brk h →
  heap_brk h + 2 * Z.max (wrap (10 * elem_size)) 1 ≤ heap_end h →
  ∃ ps h' c1 c2,
    serve (targs := {| ChunkSize := 10; sizeof_T := elem_size |})
      h MyAllocator.default_ctor (replicate 11 1)
    = Some (ps, h', {| MyAllocator.chunks_ := [c1; c2] |})
    ∧ length ps = 11%nat
    ∧ MyAllocator.size c1 = 10 ∧ MyAllocator.used c1 = 10
    ∧ MyAllocator.size c2 = 10 ∧ MyAllocator.used c2 = 1.
Proof.
  intros Hbrk Hroom.
  set (targs := {| ChunkSize := 10; sizeof_T := elem_size |}).
  set (bytes := Z.max (wrap (10 * elem_size)) 1) in *.
  set (h1 := {| heap_brk := heap_brk h + bytes; heap_end := heap_end h |}).
  set (h2 := {| heap_brk := heap_brk h1 + bytes; heap_end := heap_end h |}).
  assert (Hnew1 : operator_new h (wrap (10 * elem_size)) = Some (heap_brk h, h1)).
  { unfold operator_new. fold bytes. rewrite (proj2 (Z.leb_le _ _)) by lia. done. }
  assert (Hnew2 : operator_new h1 (wrap (10 * elem_size)) = Some (heap_brk h1, h2)).
  { unfold operator_new. fold bytes. simpl. rewrite (proj2 (Z.leb_le _ _)) by lia. done. }
  change (replicate 11 1) with (1 :: replicate 9 1 ++ [1]).
  cbn [serve].
  rewrite (allocate_new_chunk h MyAllocator.default_ctor 1);
    [|constructor|lia|intros c Hc; inversion Hc].
  change (Z.max ChunkSize 1 * sizeof_T) with (10 * elem_size). rewrite Hnew1.
  rewrite (proj2 (Z.eqb_neq (heap_brk h) nullptr)) by (unfold nullptr; lia).
  unfold MyAllocator.default_ctor. cbn [app MyAllocator.chunks_].
  change (Z.max ChunkSize 1) with 10.
  set (c0 := {| MyAllocator.data := heap_brk h; MyAllocator.size := 10;
                MyAllocator.used := 1 |}).
  assert (Hc0 : chunk_ok c0) by (unfold chunk_ok, SIZE_MOD; simpl; lia).
  destruct (serve_fill_head h1 c0 [] 9 Hc0) as (ps & Hfill & Hlen);
    [unfold room; simpl; lia|].
  assert (Hlast :
    serve h1 {| MyAllocator.chunks_ := [MyAllocator.set_used c0 10] |} [1]
    = Some ([heap_brk h1], h2,
            {| MyAllocator.chunks_ :=
                 [MyAllocator.set_used c0 10;
                  {| MyAllocator.data := heap_brk h1; MyAllocator.size := 10;
                     MyAllocator.used := 1 |}] |})).
  { cbn [serve].
    rewrite (allocate_new_chunk h1 _ 1).
    - change (Z.max ChunkSize 1 * sizeof_T) with (10 * elem_size). rewrite Hnew2.
      rewrite (proj2 (Z.eqb_neq (heap_brk h1) nullptr)) by (unfold nullptr; simpl; lia).
      reflexivity.
    - repeat constructor; simpl; unfold SIZE_MOD; lia.
    - lia.
    - intros c Hc. apply list_elem_of_singleton in Hc as ->. unfold room. simpl. lia. }
  exists (heap_brk h :: ps ++ [heap_brk h1]), h2. do 2 eexists. split; [|split].
  - pose proof (serve_app _ _ _ _ _ _ _ _ _ _ Hfill Hlast) as Happ.
    unfold size_type in Happ. rewrite Happ. reflexivity.
  - simpl. rewrite length_app, Hlen. simpl. lia.
  - simpl. done.
Qed.

(** The request sequence of C4 on a concrete runtime heap. *)
Lemma eleven_requests_witness :
  ∃ ps h' c1 c2,
    serve (targs := {| ChunkSize := 10; sizeof_T := 4 |})
      {| heap_brk := 4096; heap_end := 8192 |} MyAllocator.default_ctor (replicate 11 1)
    = Some (ps, h', {| MyAllocator.chunks_ := [c1; c2] |})
    ∧ length ps = 11%nat
    ∧ MyAllocator.size c1 = 10 ∧ MyAllocator.used c1 = 10
    ∧ MyAllocator.size c2 = 10 ∧ MyAllocator.used c2 = 1.
Proof.
  apply (eleven_requests_make_two_chunks 4 {| heap_brk := 4096; heap_end := 8192 |}).
  - simpl. lia.
  - vm_compute. discriminate.
Defined.

(** ** Runs on a pool of [int]s *)

Lemma int_pool_ok : targs_ok (targs := int_pool).
Proof. unfold targs_ok, SIZE_MOD. simpl. lia. Qed.

Lemma after_first_request_reachable :
  reachable (targs := int_pool) after_first_request.
Proof.
  apply (reachable_step (targs := int_pool)
           {| a_heap := {| heap_brk := 4096; heap_end := 8192 |};
              a_objs := ∅; a_alloc := MyAllocator.default_ctor |}).
  - apply reachable_init. simpl. lia.
  - apply (step_allocate (targs := int_pool)
             {| a_heap := {| heap_brk := 4096; heap_end := 8192 |};
                a_objs := ∅; a_alloc := MyAllocator.default_ctor |}
             1 4096 {| heap_brk := 4136; heap_end := 8192 |}
             {| MyAllocator.chunks_ :=
                  [ {| MyAllocator.data := 4096; MyAllocator.size := 10;
                       MyAllocator.used := 1 |} ] |}).
    + vm_compute. split; discriminate.
    + reflexivity.
Qed.



(** Copying is what the states above leave out, and it matters: a copy of
    the allocator after the first request serves its next request from
    slot 1 of the same chunk, a slot that the allocator copied from counts
    as unused. *)
Lemma copy_hands_out_unused_slot :
  ∃ h' b',
    MyAllocator.allocate (targs := int_pool) (a_heap after_first_request)
      (MyAllocator.copy_ctor (a_alloc after_first_request)) 1
    = Allocated
        (slot (targs := int_pool)
           {| MyAllocator.data := 4096; MyAllocator.size := 10; MyAllocator.used := 1 |} 1)
        h' b'
    ∧ ¬ handed (targs := int_pool) (a_alloc after_first_request)
          (slot (targs := int_pool)
             {| MyAllocator.data := 4096; MyAllocator.size := 10;
                MyAllocator.used := 1 |} 1).
Proof.
  eexists _, _. split; [vm_compute; reflexivity|].
  intros (c & k & Hc & Hk & Heq). simpl in Hc. apply list_elem_of_singleton in Hc as ->.
  simpl in Hk. unfold slot in Heq. simpl in Heq. lia.
Qed.


(** * Properties of the container *)

(** [my_allocator] is such an allocator, for sensible template arguments. *)
#[export] Program Instance my_allocator_lawful {targs : TemplateArgs}
  : LawfulAllocator MyAllocator.my_allocator := {|
  alloc_ok h a := targs_ok ∧ alloc_inv h a;
  alloc_handed := handed;
|}.
Next Obligation.
  intros targs h a p h' a' [Htargs Hinv] Halloc. simpl in Halloc.
  destruct (allocate_inv _ _ _ _ _ _ Htargs (max_size_pos Htargs) Hinv Halloc) as [Hinv' _].
  destruct (allocate_fresh_first _ _ _ _ _ _ Htargs (max_size_pos Htargs) Hinv Halloc)
    as (Hp & Hfresh & Hnow & Hkeep).
  done.
Qed.
Next Obligation.
  intros targs h a e h' a' [Htargs Hinv] Halloc. simpl in Halloc.
  destruct (allocate_throws _ _ _ _ _ _ Halloc) as (_ & -> & Hbrk).
  split; [|done]. split; [exact Htargs|]. by apply (alloc_inv_heap_mono h).
Qed.
Next Obligation.
  intros targs h a p Hok. simpl. by split.
Qed.

Section ContainerFacts.
Import MyContainer.
Context {T : Type} {elt : ElementType T}.
Context {A : Type} {traits : Allocator A} {laws : LawfulAllocator A}.

Lemma chain_null (m : gmap Z (Node T)) p cells : chain m p cells → (p = nullptr ↔ cells = []).
Proof.
  destruct cells as [|cell rest]; simpl.
  - intros ->. done.
  - intros (Hp & Hne & _). split; [congruence|discriminate].
Qed.

(** A chain only depends on the memory at its own cells. *)
Lemma chain_frame (m m' : gmap Z (Node T)) p cells :
  chain m p cells → (∀ q, q ∈ cells.*1 → m' !! q = m !! q) → chain m' p cells.
Proof.
  revert p. induction cells as [|cell rest IH]; intros p; simpl; [done|].
  intros (-> & Hne & nxt & Hcell & Hrest) Hsame. split; [done|]. split; [done|].
  exists nxt. split.
  - rewrite Hsame; [done|]. apply list_elem_of_here.
  - apply IH; [done|]. intros q Hq. apply Hsame. by apply list_elem_of_further.
Qed.

(** The last node of a chain links to nothing. *)
Lemma chain_last (m : gmap Z (Node T)) p front q v :
  chain m p (front ++ [(q, v)]) → m !! q = Some {| data := v; next := nullptr |}.
Proof.
  revert p. induction front as [|cell front IH]; intros p; simpl.
  - intros (_ & _ & nxt & Hcell & ->). done.
  - intros (_ & _ & nxt & _ & Hrest). by apply (IH nxt).
Qed.

(** Linking a new node behind the last one. *)
Lemma chain_snoc (m : gmap Z (Node T)) p front q v new_node d :
  chain m p (front ++ [(q, v)]) →
  NoDup (front ++ [(q, v)]).*1 →
  new_node ∉ (front ++ [(q, v)]).*1 → new_node ≠ nullptr →
  chain (<[q := {| data := v; next := new_node |}]>
           (<[new_node := {| data := d; next := nullptr |}]> m))
        p ((front ++ [(q, v)]) ++ [(new_node, d)]).
Proof.
  revert p. induction front as [|cell front IH]; intros p; simpl.
  - intros (-> & Hq & nxt & Hcell & ->) _ Hnew Hnn.
    split; [done|]. split; [done|]. exists new_node.
    split; [by rewrite lookup_insert_eq|]. split; [done|]. split; [done|].
    exists nullptr. split; [|done].
    rewrite lookup_insert_ne; [by rewrite lookup_insert_eq|].
    intros Heq. apply Hnew. rewrite Heq. apply list_elem_of_here.
  - intros (-> & Hne & nxt & Hcell & Hrest) Hnodup Hnew Hnn.
    apply NoDup_cons in Hnodup as [Hfresh Hnodup].
    split; [done|]. split; [done|]. exists nxt. split.
    + assert (Hq : q ≠ cell.1).
      { intros Heq. apply Hfresh. rewrite fmap_app. apply elem_of_app. right.
        rewrite <- Heq. apply list_elem_of_here. }
      assert (Hn : new_node ≠ cell.1).
      { intros Heq. apply Hnew. rewrite Heq. apply list_elem_of_here. }
      by rewrite !lookup_insert_ne.
    + apply IH; [done|done| |done]. intros Hin. apply Hnew. by apply list_elem_of_further.
Qed.

Lemma back_addr_snoc (cells : list (pointer * T)) q v : back_addr (cells ++ [(q, v)]) = q.
Proof. unfold back_addr. by rewrite last_snoc. Qed.

(** Forward iteration over a chain visits its values in link order. *)
Lemma traverse_chain (m : gmap Z (Node T)) p cells (fuel : nat) :
  chain m p cells → (length cells < fuel)%nat →
  traverse fuel m {| current_ := p |} {| current_ := nullptr |} = Some (Some cells.*2).
Proof.
  revert p fuel. induction cells as [|cell rest IH]; intros p fuel; simpl.
  - intros -> Hfuel. destruct fuel; reflexivity.
  - intros (-> & Hne & nxt & Hcell & Hrest) Hfuel.
    destruct fuel as [|fuel]; [lia|]. simpl.
    unfold iterator_ne, iterator_eq, iterator_deref, iterator_incr. simpl.
    rewrite (proj2 (Z.eqb_neq _ _) Hne), Hcell. simpl.
    rewrite (IH nxt fuel Hrest) by lia. done.
Qed.

Lemma push_back_is_emplace_back s (c : my_container A) value :
  push_back s c value = emplace_back T_copy s c value.
Proof. reflexivity. Qed.

(** What one append does to a container that holds [cells]. *)
Lemma emplace_back_spec {Args : Type} (T_ctor : Args → exception + T) s c args cells :
  represents s c cells → size_ c + 1 < SIZE_MOD →
  match emplace_back T_ctor s c args with
  | Returns s' c' =>
      ∃ d, T_ctor args = inr d
        ∧ represents s' c' (cells ++ [(tail_ c', d)])
        ∧ size_ c' = size_ c + 1
  | Throws e s' c' =>
      head_ c' = head_ c ∧ tail_ c' = tail_ c ∧ size_ c' = size_ c
      ∧ mem s' = mem s
      ∧ represents s' c' cells
      ∧ ((∃ h a, traits_allocate (heap s) (allocator_ c) 1 = AllocThrows e h a
                 ∧ heap s' = h ∧ allocator_ c' = a)
         ∨ (∃ new_node h a,
               traits_allocate (heap s) (allocator_ c) 1 = Allocated new_node h a
               ∧ T_ctor args = inl e
               ∧ (heap s', allocator_ c') = traits_deallocate h a new_node 1))
  | Undefined | OutOfFuel => False
  end.
Proof.
  intros (Hchain & Hnodup & Htail & Hsize & Hhanded & Hok) Hroom.
  unfold emplace_back.
  destruct (traits_allocate (heap s) (allocator_ c) 1) as [p h a|e h a] eqn:Halloc.
  - destruct (allocate_lawful _ _ _ _ _ Hok Halloc) as (Hok' & Hp & Hfresh & Hnow & Hkeep).
    assert (Hnotin : p ∉ cells.*1).
    { intros Hin. apply Hfresh. by apply (proj1 (Forall_forall _ _) Hhanded). }
    unfold MyAllocator.construct, Node_ctor. destruct (T_ctor args) as [e|d] eqn:Hctor.
    + destruct (deallocate_lawful h a p Hok') as [Hok'' Hkeep'].
      destruct (traits_deallocate h a p 1) as [h' a'] eqn:Hde. simpl in *.
      repeat (split; [done|]). split.
      * repeat (split; [done|]). simpl. split; [|done].
        apply Forall_forall. intros q Hq. apply Hkeep'.
        -- apply Hkeep. by apply (proj1 (Forall_forall _ _) Hhanded).
        -- intros ->. done.
      * right. exists p, h, a. by rewrite Hde.
    + unfold link_back. destruct cells as [|cell rest _] using rev_ind.
      * simpl in Hchain. rewrite Hchain. simpl. exists d. split; [done|].
        split; [|rewrite Hsize; simpl; by rewrite wrap_small by (unfold SIZE_MOD; lia)].
        split; simpl.
        { split; [done|]. split; [done|]. exists nullptr.
          by rewrite lookup_insert_eq. }
        split; [apply NoDup_singleton|]. split; [done|].
        split; [rewrite Hsize; simpl; by rewrite wrap_small by (unfold SIZE_MOD; lia)|].
        split; [by constructor|done].
      * destruct cell as [q v].
        assert (Hhead : head_ c ≠ nullptr).
        { intros Hnull. apply (chain_null _ _ _ Hchain) in Hnull.
          by destruct rest. }
        rewrite (proj2 (Z.eqb_neq _ _) Hhead).
        rewrite back_addr_snoc in Htail. rewrite Htail.
        assert (Hqp : p ≠ q).
        { intros ->. apply Hnotin. rewrite fmap_app. apply elem_of_app. right.
          apply list_elem_of_here. }
        unfold set_next. rewrite lookup_insert_ne by done.
        rewrite (chain_last _ _ _ _ _ Hchain). simpl.
        assert (Hwrap : wrap (size_ c + 1) = size_ c + 1).
        { apply wrap_small. rewrite Hsize in *. lia. }
        exists d. split; [done|]. split; [|done].
        split; simpl; [by apply chain_snoc|].
        split. { rewrite fmap_app. simpl. apply NoDup_app. split; [done|].
                 split; [|apply NoDup_singleton].
                 intros x Hx Hx'. apply list_elem_of_singleton in Hx' as ->. done. }
        split; [by rewrite back_addr_snoc|].
        split. { rewrite Hwrap, Hsize, !length_app. simpl. lia. }
        split; [|done]. rewrite fmap_app. apply Forall_app. split.
        -- apply Forall_forall. intros x Hx. apply Hkeep.
           by apply (proj1 (Forall_forall _ _) Hhanded).
        -- by constructor.
  - destruct (allocate_throws_lawful _ _ _ _ _ Hok Halloc) as [Hok' Hkeep]. simpl.
    repeat (split; [done|]). split.
    + repeat (split; [done|]). simpl. split; [|done].
      apply Forall_forall. intros q Hq. apply Hkeep.
      by apply (proj1 (Forall_forall _ _) Hhanded).
    + left. by exists h, a.
Qed.

(** A sequence of appends, from a container that holds [cells]. *)
Lemma push_back_list_spec vs s c cells :
  represents s c cells →
  Z.of_nat (length cells) + Z.of_nat (length vs) < SIZE_MOD →
  match push_back_list s c vs with
  | Returns s' c' =>
      ∃ cells', represents s' c' (cells ++ cells') ∧ cells'.*2 = vs
  | Throws e s' c' => True
  | Undefined | OutOfFuel => False
  end.
Proof.
  revert s c cells. induction vs as [|v vs IH]; intros s c cells Hrep Hlen; simpl.
  - exists []. by rewrite app_nil_r.
  - pose proof Hrep as (_ & _ & _ & Hsize & _).
    pose proof (emplace_back_spec T_copy s c v cells Hrep) as Hpush.
    rewrite <- push_back_is_emplace_back in Hpush.
    destruct (push_back s c v) as [s' c'|e s' c'| |]; [|done|..].
    + destruct Hpush as (d & Hd & Hrep' & Hsize'); [simpl in Hlen; lia|].
      unfold T_copy in Hd. destruct (T_copy_throws v); [discriminate|].
      injection Hd as <-.
      specialize (IH s' c' _ Hrep'). rewrite length_app in IH. simpl in *.
      destruct (push_back_list s' c' vs) as [s'' c''|e s'' c''| |]; [|done|..].
      * destruct IH as (cells' & Hrep'' & Hvs); [lia|].
        exists ((tail_ c', v) :: cells'). rewrite <- app_assoc in Hrep''.
        split; [done|]. simpl. by f_equal.
      * apply IH. lia.
      * apply IH. lia.
    + apply Hpush. simpl in Hlen. lia.
    + apply Hpush. simpl in Hlen. lia.
Qed.

(** The loop of [clear] never throws. *)
Lemma clear_loop_no_throw fuel h (m : gmap Z (Node T)) (a : A) p e s' c' :
  clear_loop fuel h m a p ≠ Throws e s' c'.
Proof.
  revert h m a p. induction fuel as [|fuel IH]; intros h m a p; simpl.
  - destruct (p =? nullptr); discriminate.
  - destruct (p =? nullptr); [discriminate|]. destruct (m !! p); [|discriminate].
    destruct (MyAllocator.destroy m p); [|discriminate].
    destruct (traits_deallocate h a p 1). apply IH.
Qed.

(** With more fuel than live nodes the loop of [clear] is never cut. *)
Lemma clear_loop_enough_fuel fuel h (m : gmap Z (Node T)) (a : A) p :
  (base.size m < fuel)%nat → clear_loop fuel h m a p ≠ OutOfFuel.
Proof.
  revert h m a p. induction fuel as [|fuel IH]; intros h m a p Hfuel; [lia|]. simpl.
  destruct (p =? nullptr); [discriminate|].
  destruct (m !! p) as [nd|] eqn:Hp; [|discriminate].
  unfold MyAllocator.destroy. rewrite Hp.
  destruct (traits_deallocate h a p 1). apply IH.
  rewrite map_size_delete_Some by (by eexists).
  pose proof (map_size_ne_0_lookup_2 m p ltac:(by eexists)).
  destruct (base.size m); [done|simpl; lia].
Qed.

(** Whatever the loop of [clear] returns is an empty container, on which
    the loop does nothing. *)
Lemma clear_loop_returns fuel h (m : gmap Z (Node T)) (a : A) p s' c' :
  clear_loop fuel h m a p = Returns s' c' →
  head_ c' = nullptr ∧ tail_ c' = nullptr ∧ size_ c' = 0
  ∧ ∀ fuel', clear_loop fuel' (heap s') (mem s') (allocator_ c') (head_ c') = Returns s' c'.
Proof.
  revert h m a p. induction fuel as [|fuel IH]; intros h m a p; simpl.
  - destruct (p =? nullptr); [|discriminate]. intros [= <- <-]. simpl.
    repeat (split; [done|]). by intros [|?].
  - destruct (p =? nullptr).
    + intros [= <- <-]. simpl. repeat (split; [done|]). by intros [|?].
    + destruct (m !! p); [|discriminate].
      destruct (MyAllocator.destroy m p); [|discriminate].
      destruct (traits_deallocate h a p 1). apply IH.
Qed.

(** On a container that holds [cells] the loop of [clear] destroys exactly
    these nodes, in link order, and returns. *)
Lemma clear_loop_chain fuel h (m : gmap Z (Node T)) (a : A) p cells :
  chain m p cells → NoDup cells.*1 →
  Forall (alloc_handed a) cells.*1 → alloc_ok h a →
  (base.size m < fuel)%nat →
  ∃ h' m' a',
    clear_loop fuel h m a p
    = Returns {| heap := h'; mem := m' |}
        {| head_ := nullptr; tail_ := nullptr; size_ := 0; allocator_ := a' |}
    ∧ alloc_ok h' a'
    ∧ (∀ q, q ∈ cells.*1 → m' !! q = None)
    ∧ (∀ q, q ∉ cells.*1 → m' !! q = m !! q).
Proof.
  revert fuel h m a p.
  induction cells as [|cell rest IH]; intros fuel h m a p Hchain Hnodup Hhanded Hok Hfuel.
  - simpl in Hchain. subst p. exists h, m, a. destruct fuel; simpl.
    + split; [done|]. split; [done|]. split; [intros q Hq; inversion Hq|done].
    + split; [done|]. split; [done|]. split; [intros q Hq; inversion Hq|done].
  - destruct Hchain as (-> & Hne & nxt & Hcell & Hrest).
    simpl in Hnodup. apply NoDup_cons in Hnodup as [Hfresh Hnodup].
    simpl in Hhanded. inversion Hhanded as [|? ? Hh1 Hh2]; subst.
    destruct fuel as [|fuel]; [lia|]. simpl.
    rewrite (proj2 (Z.eqb_neq _ _) Hne), Hcell. simpl.
    unfold MyAllocator.destroy. rewrite Hcell.
    destruct (deallocate_lawful h a cell.1 Hok) as [Hok' Hkeep].
    destruct (traits_deallocate h a cell.1 1) as [h1 a1]. simpl in *.
    destruct (IH fuel h1 (delete cell.1 m) a1 nxt) as (h' & m' & a' & Hloop & Hok'' & Hgone & Hsame).
    + apply (chain_frame m); [done|]. intros q Hq. apply lookup_delete_ne.
      intros <-. done.
    + done.
    + apply Forall_forall. intros q Hq. apply Hkeep.
      * by apply (proj1 (Forall_forall _ _) Hh2).
      * intros ->. done.
    + done.
    + rewrite map_size_delete_Some by (by eexists).
      pose proof (map_size_ne_0_lookup_2 m cell.1 ltac:(by eexists)).
      destruct (base.size m); [done|simpl; lia].
    + exists h', m', a'. split; [done|]. split; [done|]. split.
      * intros q Hq. apply elem_of_cons in Hq as [->|Hq]; [|by apply Hgone].
        rewrite Hsame by done. apply lookup_delete_eq.
      * intros q Hq. apply not_elem_of_cons in Hq as [Hq1 Hq2].
        rewrite Hsame by done. by apply lookup_delete_ne.
Qed.

(** C2.  For [push_back(value)] and [emplace_back(args...)] on a container
    that holds [cells] (and is not at the end of [size_t]): on success the
    size is exactly one more and the new element is the last one, after
    the old ones; a copy that succeeds is the value pushed.  When the
    construction of the node fails, the storage just taken is passed to the
    allocator's [deallocate], the exception that leaves is the one the
    constructor raised, and [head_], [tail_], [size_] and the elements are
    as before the call.  No other outcome exists. *)
Theorem push_back_strong_guarantee {Args : Type} (T_ctor : Args → exception + T)
    s c cells value args :
  represents s c cells → size_ c + 1 < SIZE_MOD →
  appended s c cells (T_copy value) (push_back s c value)
  ∧ (∀ d, T_copy value = inr d → d = value)
  ∧ appended s c cells (T_ctor args) (emplace_back T_ctor s c args).
Proof.
  intros Hrep Hroom. split; [|split].
  - pose proof (emplace_back_spec T_copy s c value cells Hrep Hroom) as Hspec.
    rewrite <- push_back_is_emplace_back in Hspec. unfold appended.
    destruct (push_back s c value) as [s' c'|e s' c'| |]; try done.
    destruct Hspec as (d & Hd & Hrep' & Hsize). by exists d.
  - intros d. unfold T_copy. destruct (T_copy_throws value); [discriminate|].
    by intros [= <-].
  - pose proof (emplace_back_spec T_ctor s c args cells Hrep Hroom) as Hspec.
    unfold appended.
    destruct (emplace_back T_ctor s c args) as [s' c'|e s' c'| |]; try done.
    destruct Hspec as (d & Hd & Hrep' & Hsize). by exists d.
Qed.

(** A sequence of appends that throws: the calls before the one that threw
    returned and left their values in the container. *)
Lemma push_back_list_throws_at vs (s : State T) (c : my_container A) cells e s' c' :
  represents s c cells →
  Z.of_nat (length cells) + Z.of_nat (length vs) < SIZE_MOD →
  push_back_list s c vs = Throws e s' c' →
  ∃ pushed v rest s1 c1 new,
    vs = pushed ++ v :: rest
    ∧ push_back_list s c pushed = Returns s1 c1
    ∧ represents s1 c1 (cells ++ new) ∧ new.*2 = pushed
    ∧ push_back s1 c1 v = Throws e s' c'.
Proof.
  revert s c cells. induction vs as [|v vs IH]; intros s c cells Hrep Hlen; simpl.
  - discriminate.
  - pose proof Hrep as (_ & _ & _ & Hsize & _).
    assert (Hroom : size_ c + 1 < SIZE_MOD) by (simpl in Hlen; lia).
    pose proof (emplace_back_spec T_copy s c v cells Hrep Hroom) as Hspec.
    rewrite <- push_back_is_emplace_back in Hspec.
    destruct (push_back s c v) as [s1 c1|e1 s1 c1| |] eqn:Hpush; [| |done..].
    + destruct Hspec as (d & Hd & Hrep1 & _).
      unfold T_copy in Hd. destruct (T_copy_throws v); [discriminate|].
      injection Hd as <-. intros Hthrow.
      destruct (IH s1 c1 _ Hrep1) as (pushed & v' & rest & s2 & c2 & new & Hvs & Hrun
                                      & Hrep2 & Hvals & Hlast); [|done|].
      { rewrite length_app. simpl in *. lia. }
      exists (v :: pushed), v', rest, s2, c2, ((tail_ c1, v) :: new).
      rewrite <- app_assoc in Hrep2. subst pushed vs. simpl. rewrite Hpush.
      split; [done|]. split; [done|]. split; [exact Hrep2|]. split; [reflexivity|done].
    + intros [= <- <- <-]. exists [], v, vs, s, c, []. rewrite app_nil_r. done.
Qed.

(** C3.  A sequence of [push_back] calls on an empty container (one that
    holds no cell, with its allocator in order) has no undefined
    behaviour.  When all the calls return, [size()] is the number of values
    pushed, and forward iteration from [begin()] to [end()] terminates and
    visits exactly the values pushed, in the order they were pushed.  A
    call throws only when the allocator throws on the request for its node
    or the copy of its value throws, the exception being that one; the
    calls before it returned, and the container is left with their
    values: [size()] is their number and iteration visits them in
    order. *)
Theorem push_back_sequence_size_and_order (vs : list T) s c :
  represents s c [] → Z.of_nat (length vs) < SIZE_MOD →
  match push_back_list s c vs with
  | Returns s' c' =>
      size c' = Z.of_nat (length vs)
      ∧ ∀ fuel : nat, (length vs < fuel)%nat →
          traverse fuel (mem s') (begin_ c') (end_ c') = Some (Some vs)
  | Throws e s' c' =>
      ∃ pushed v rest s1 c1,
        vs = pushed ++ v :: rest
        ∧ push_back_list s c pushed = Returns s1 c1
        ∧ push_back s1 c1 v = Throws e s' c'
        ∧ ((∃ h a, traits_allocate (heap s1) (allocator_ c1) 1 = AllocThrows e h a)
           ∨ T_copy v = inl e)
        ∧ size c' = Z.of_nat (length pushed)
        ∧ ∀ fuel : nat, (length pushed < fuel)%nat →
            traverse fuel (mem s') (begin_ c') (end_ c') = Some (Some pushed)
  | Undefined | OutOfFuel => False
  end.
Proof.
  intros Hrep Hlen.
  pose proof (push_back_list_spec vs s c [] Hrep) as Hspec. simpl in Hspec.
  pose proof (push_back_list_throws_at vs s c [] ) as Hthrows. simpl in Hthrows.
  destruct (push_back_list s c vs) as [s' c'|e s' c'| |]; [| |by apply Hspec..].
  - destruct Hspec as (cells & (Hchain & _ & _ & Hsize & _) & Hvs); [lia|].
    assert (Hlength : length cells = length vs) by (by rewrite <- Hvs, length_fmap).
    split.
    + unfold size. by rewrite Hsize, Hlength.
    + intros fuel Hfuel. unfold begin_, end_. rewrite <- Hvs.
      apply traverse_chain; [done|lia].
  - destruct (Hthrows e s' c' Hrep Hlen eq_refl)
      as (pushed & v & rest & s1 & c1 & new & -> & Hrun & Hrep1 & Hvals & Hlast).
    assert (Hlength : length new = length pushed) by (by rewrite <- Hvals, length_fmap).
    pose proof Hrep1 as (_ & _ & _ & Hsize1 & _).
    assert (Hroom : size_ c1 + 1 < SIZE_MOD).
    { rewrite length_app in Hlen. simpl in Hlen. lia. }
    pose proof (emplace_back_spec T_copy s1 c1 v new Hrep1 Hroom) as Hpush.
    rewrite <- push_back_is_emplace_back, Hlast in Hpush.
    destruct Hpush as (_ & _ & _ & _ & (Hchain & _ & _ & Hsize & _) & Hwhy).
    exists pushed, v, rest, s1, c1. repeat (split; [done|]). split; [|split].
    + destruct Hwhy as [(h & a & Halloc & _)|(p & h & a & _ & Hcopy & _)].
      * left. by exists h, a.
      * by right.
    + unfold size. by rewrite Hsize, Hlength.
    + intros fuel Hfuel. unfold begin_, end_. rewrite <- Hvals.
      apply traverse_chain; [done|lia].
Qed.

(** C9.  [clear()] never throws and its loop always ends, in any state at
    all.  Whenever it returns, [head_] and [tail_] are null and [size()] is
    0, and a second [clear()] returns exactly the state and container the
    first one left.  On a container that holds [cells] it does return, and
    it has ended the lifetime of exactly these nodes. *)
Theorem clear_empties_and_is_idempotent (s : State T) (c : my_container A) :
  (∀ e s' c', clear s c ≠ Throws e s' c')
  ∧ clear s c ≠ OutOfFuel
  ∧ (∀ s' c', clear s c = Returns s' c' →
       head_ c' = nullptr ∧ tail_ c' = nullptr ∧ size c' = 0
       ∧ clear s' c' = Returns s' c')
  ∧ (∀ cells, represents s c cells →
       ∃ s' c', clear s c = Returns s' c'
         ∧ represents s' c' []
         ∧ (∀ q, q ∈ cells.*1 → mem s' !! q = None)
         ∧ (∀ q, q ∉ cells.*1 → mem s' !! q = mem s !! q)).
Proof.
  unfold clear. split; [|split; [|split]].
  - intros e s' c'. apply clear_loop_no_throw.
  - apply clear_loop_enough_fuel. lia.
  - intros s' c' Hclear.
    destruct (clear_loop_returns _ _ _ _ _ _ _ Hclear) as (H1 & H2 & H3 & Hagain).
    repeat (split; [done|]). apply Hagain.
  - intros cells (Hchain & Hnodup & _ & _ & Hhanded & Hok).
    destruct (clear_loop_chain (S (base.size (mem s))) (heap s) (mem s) (allocator_ c)
                (head_ c) cells Hchain Hnodup Hhanded Hok ltac:(lia))
      as (h' & m' & a' & Hloop & Hok' & Hgone & Hsame).
    eexists _, _. split; [exact Hloop|]. split; [|done].
    split; [done|]. split; [apply NoDup_nil_2|]. split; [done|]. split; [done|].
    split; [constructor|done].
Qed.

(** C10.  Move-assigning a container object to itself returns at once: the
    state outside the containers (heap and nodes) and every container
    object, this one included, with its [head_], [tail_], [size_] and
    allocator, are exactly as before; nothing is thrown. *)
Theorem move_assign_self_is_noop (s : State T) (objs : gmap Z (my_container A))
    (this : pointer) :
  move_assign s objs this this = Returns s objs.
Proof. unfold move_assign. by rewrite Z.eqb_refl. Qed.

Lemma follow_chain (m : gmap Z (Node T)) p front q v :
  chain m p (front ++ [(q, v)]) → follow m p (length front) = Some q.
Proof.
  revert p. induction front as [|cell front IH]; intros p; simpl.
  - intros (-> & _). done.
  - intros (-> & _ & nxt & -> & Hrest). simpl. by apply IH.
Qed.

(** A container that holds cells satisfies the invariant of the handle. *)
Lemma represents_handle_inv (s : State T) (c : my_container A) cells : represents s c cells → handle_inv s c.
Proof.
  intros (Hchain & _ & Htail & Hsize & _). unfold handle_inv.
  destruct cells as [|cell rest _] using rev_ind.
  - simpl in *. rewrite Hsize, Hchain, Htail. split; [done|lia].
  - destruct cell as [q v]. rewrite back_addr_snoc in Htail.
    rewrite length_app in Hsize. simpl in Hsize. split.
    + split; [lia|]. intros [Hhead _].
      apply (chain_null _ _ _ Hchain) in Hhead. by destruct rest.
    + intros _. rewrite Htail, (chain_last _ _ _ _ _ Hchain). split; [done|].
      replace (Z.to_nat (size_ c - 1)) with (length rest) by lia.
      by apply (follow_chain _ _ _ _ v).
Qed.

Lemma used_alone_represents (s : State T) (c : my_container A) : used_alone s c → ∃ cells, represents s c cells.
Proof.
  induction 1 as
    [s c Hrep
    |s c value s' c' _ [cells Hrep] Hroom Hpush
    |s c value e s' c' _ [cells Hrep] Hroom Hpush
    |Args T_ctor s c args s' c' _ [cells Hrep] Hroom Hpush
    |Args T_ctor s c args e s' c' _ [cells Hrep] Hroom Hpush
    |s c s' c' _ [cells Hrep] Hclear].
  - by exists [].
  - pose proof (emplace_back_spec T_copy s c value cells Hrep Hroom) as Hspec.
    rewrite <- push_back_is_emplace_back, Hpush in Hspec.
    destruct Hspec as (d & _ & Hrep' & _). by eexists.
  - pose proof (emplace_back_spec T_copy s c value cells Hrep Hroom) as Hspec.
    rewrite <- push_back_is_emplace_back, Hpush in Hspec.
    destruct Hspec as (_ & _ & _ & _ & Hrep' & _). by eexists.
  - pose proof (emplace_back_spec T_ctor s c args cells Hrep Hroom) as Hspec.
    rewrite Hpush in Hspec. destruct Hspec as (d & _ & Hrep' & _). by eexists.
  - pose proof (emplace_back_spec T_ctor s c args cells Hrep Hroom) as Hspec.
    rewrite Hpush in Hspec. destruct Hspec as (_ & _ & _ & _ & Hrep' & _). by eexists.
  - destruct Hrep as (Hchain & Hnodup & _ & _ & Hhanded & Hok).
    destruct (clear_loop_chain (S (base.size (mem s))) (heap s) (mem s) (allocator_ c)
                (head_ c) cells Hchain Hnodup Hhanded Hok ltac:(lia))
      as (h' & m' & a' & Hloop & Hok' & _).
    unfold clear in Hclear. rewrite Hloop in Hclear. injection Hclear as <- <-.
    exists []. split; [done|]. split; [apply NoDup_nil_2|]. split; [done|].
    split; [done|]. split; [constructor|done].
Qed.

(** X1.  A container that is used alone keeps the invariant of its handle:
    in every state reached from an empty container by [push_back],
    [emplace_back] and [clear] on this container only, [size_] is 0 exactly
    when [head_] and [tail_] are null, and otherwise the node at [tail_]
    links to nothing and [size_ - 1] links lead from [head_] to [tail_]. *)
Theorem handle_invariant_when_used_alone (s : State T) (c : my_container A) :
  used_alone s c → handle_inv s c.
Proof.
  intros Halone. destruct (used_alone_represents s c Halone) as [cells Hrep].
  by apply (represents_handle_inv s c cells).
Qed.

End ContainerFacts.

(** ** Runs on a container of [int]s over the pool *)

Lemma node_pool_ok : targs_ok (targs := node_pool).
Proof. unfold targs_ok, SIZE_MOD. simpl. lia. Qed.

Lemma start_represents :
  represents (laws := my_allocator_lawful (targs := node_pool))
    start_state start_container [].
Proof.
  split; [reflexivity|]. split; [apply NoDup_nil_2|]. split; [reflexivity|].
  split; [reflexivity|]. split; [constructor|]. split; [apply node_pool_ok|].
  apply alloc_inv_default. simpl. lia.
Qed.

(** C7 fails on the pool allocator.  The copy constructor of the container
    copies the allocator, and the copy of a [my_allocator] has the same
    chunks with the same used counts.  After
    [a.push_back(1); my_container b(a); a.push_back(2); a.push_back(3);]
    the copy [b] has size 1 and [head_ == tail_], but its only node was
    overwritten by [a]: it holds 2, not 1, and its [next] link is not null. *)
Theorem copy_shares_chunks_and_breaks_tail_link :
  ∃ s a b,
    copy_then_push = Some (s, a, b)
    ∧ MyContainer.size_ b = 1
    ∧ MyContainer.head_ b = MyContainer.tail_ b
    ∧ MyContainer.mem s !! MyContainer.tail_ b
      = Some {| MyContainer.data := 2; MyContainer.next := 4128 |}
    ∧ MyContainer.tail_ a = 4128.
Proof.
  eexists _, _, _. split; [vm_compute; reflexivity|].
  vm_compute. repeat split; reflexivity.
Qed.

(** C1 on a pool of [int]s with a full first chunk and room in the second:
    a request for 2 elements skips the first chunk and is served from the
    second, at its base plus 3 elements. *)
Lemma allocate_first_fit_witness :
  MyAllocator.allocate (targs := int_pool)
    {| heap_brk := 6000; heap_end := 8192 |}
    {| MyAllocator.chunks_ :=
         [ {| MyAllocator.data := 4096; MyAllocator.size := 10; MyAllocator.used := 10 |};
           {| MyAllocator.data := 5000; MyAllocator.size := 10; MyAllocator.used := 3 |} ] |}
    2
  = Allocated 5012 {| heap_brk := 6000; heap_end := 8192 |}
      {| MyAllocator.chunks_ :=
           [ {| MyAllocator.data := 4096; MyAllocator.size := 10; MyAllocator.used := 10 |};
             {| MyAllocator.data := 5000; MyAllocator.size := 10; MyAllocator.used := 5 |} ] |}.
Proof.
  refine (proj1 (allocate_first_fit_or_new_chunk (targs := int_pool)
                   {| heap_brk := 6000; heap_end := 8192 |}
                   {| MyAllocator.chunks_ :=
                        [ {| MyAllocator.data := 4096; MyAllocator.size := 10;
                             MyAllocator.used := 10 |};
                          {| MyAllocator.data := 5000; MyAllocator.size := 10;
                             MyAllocator.used := 3 |} ] |}
                   2 _ _)
            1%nat
            {| MyAllocator.data := 5000; MyAllocator.size := 10; MyAllocator.used := 3 |}
            _ _ _).
  - unfold SIZE_MOD. lia.
  - repeat constructor; simpl; unfold SIZE_MOD; lia.
  - reflexivity.
  - simpl. lia.
  - intros [|j] c' Hj Hc'; [|lia]. injection Hc' as <-. simpl. lia.
Defined.

(** C2 at the program start: [push_back(7)] on the empty container, and an
    [emplace_back(-1)] whose constructor throws. *)
Lemma push_back_strong_guarantee_witness :
  appended (laws := my_allocator_lawful (targs := node_pool))
    start_state start_container [] (MyContainer.T_copy (elt := checked_int) 7)
    (MyContainer.push_back (elt := checked_int)
       (traits := my_allocator_traits (targs := node_pool)) start_state start_container 7)
  ∧ (∀ d, MyContainer.T_copy (elt := checked_int) 7 = inr d → d = 7)
  ∧ appended (laws := my_allocator_lawful (targs := node_pool))
      start_state start_container [] (checked_int_ctor (-1))
      (MyContainer.emplace_back (traits := my_allocator_traits (targs := node_pool))
         checked_int_ctor start_state start_container (-1)).
Proof.
  apply (push_back_strong_guarantee (elt := checked_int)
           (laws := my_allocator_lawful (targs := node_pool))
           checked_int_ctor start_state start_container [] 7 (-1)).
  - apply start_represents.
  - vm_compute. reflexivity.
Defined.

(** C3 at the program start: the integers 0..9 pushed one after the
    other.  All ten calls return. *)
Lemma push_back_sequence_witness :
  ∃ s' c',
    MyContainer.push_back_list (elt := plain_int)
      (traits := my_allocator_traits (targs := node_pool))
      start_state start_container [0; 1; 2; 3; 4; 5; 6; 7; 8; 9]
    = MyContainer.Returns s' c'
    ∧ MyContainer.size c' = 10
    ∧ ∀ fuel : nat, (10 < fuel)%nat →
        MyContainer.traverse fuel (MyContainer.mem s') (MyContainer.begin_ c')
          (MyContainer.end_ c')
        = Some (Some [0; 1; 2; 3; 4; 5; 6; 7; 8; 9]).
Proof.
  pose proof (push_back_sequence_size_and_order (elt := plain_int)
                (laws := my_allocator_lawful (targs := node_pool))
                [0; 1; 2; 3; 4; 5; 6; 7; 8; 9] start_state start_container
                start_represents ltac:(vm_compute; reflexivity)) as Hrun.
  destruct (MyContainer.push_back_list (elt := plain_int)
              (traits := my_allocator_traits (targs := node_pool))
              start_state start_container [0; 1; 2; 3; 4; 5; 6; 7; 8; 9])
    as [s' c'|e s' c'| |] eqn:Hcalls.
  - exists s', c'. split; [reflexivity|exact Hrun].
  - vm_compute in Hcalls. discriminate.
  - destruct Hrun.
  - destruct Hrun.
Defined.

(** The same with an element type that refuses negative values: the third
    call throws, and the container is left with the two values pushed
    before. *)
Lemma push_back_sequence_throws :
  ∃ s' c',
    MyContainer.push_back_list (elt := checked_int)
      (traits := my_allocator_traits (targs := node_pool))
      start_state start_container [5; 6; -1; 7]
    = MyContainer.Throws (user_exception (-1)) s' c'
    ∧ MyContainer.size c' = 2
    ∧ MyContainer.traverse 3 (MyContainer.mem s') (MyContainer.begin_ c')
        (MyContainer.end_ c')
      = Some (Some [5; 6]).
Proof.
  eexists _, _. split; [vm_compute; reflexivity|]. vm_compute. split; reflexivity.
Qed.

(** X1 after one [push_back] at the program start. *)
Lemma handle_invariant_witness :
  ∃ s c,
    MyContainer.push_back (elt := plain_int)
      (traits := my_allocator_traits (targs := node_pool)) start_state start_container 1
    = MyContainer.Returns s c
    ∧ handle_inv s c.
Proof.
  eexists _, _. split; [vm_compute; reflexivity|].
  apply (handle_invariant_when_used_alone (elt := plain_int)
           (laws := my_allocator_lawful (targs := node_pool))).
  apply (alone_push_back (elt := plain_int)
           (laws := my_allocator_lawful (targs := node_pool))
           start_state start_container 1).
  - apply alone_empty, start_represents.
  - vm_compute. reflexivity.
  - vm_compute. reflexivity.
Defined.

(** X2 for a request of two elements after the first request: the second
    element of the block was never handed out and holds nothing. *)
Lemma allocate_never_aliases_witness :
  ¬ handed (targs := int_pool) (a_alloc after_first_request) (4100 + 1 * 4)
  ∧ a_objs after_first_request !! (4100 + 1 * 4) = None.
Proof.
  apply (allocate_never_aliases (targs := int_pool) after_first_request 2 4100
           {| heap_brk := 4136; heap_end := 8192 |}
           {| MyAllocator.chunks_ :=
                [ {| MyAllocator.data := 4096; MyAllocator.size := 10;
                     MyAllocator.used := 3 |} ] |}).
  - apply int_pool_ok.
  - apply after_first_request_reachable.
  - vm_compute. split; [reflexivity|discriminate].
  - reflexivity.
  - lia.
Defined.

(** * Further properties of the allocator *)

Section AllocatorBounds.
Import MyAllocator.
Context {targs : TemplateArgs}.

(** Above [max_size()] the byte size wraps to less than it is, and is at
    least 2^64. *)
Lemma max_size_bounds_byte_count_aux n :
  0 < sizeof_T < SIZE_MOD → 0 ≤ n → max_size < n →
  wrap (n * sizeof_T) < n * sizeof_T ∧ Z.max (wrap (n * sizeof_T)) 1 < n * sizeof_T.
Proof.
  intros [Hs Hs'] Hn Hgt. unfold max_size in Hgt.
  pose proof (Z.mul_succ_div_gt (SIZE_MOD - 1) sizeof_T Hs) as Hup.
  assert (SIZE_MOD ≤ n * sizeof_T) by nia.
  pose proof (Z.mod_pos_bound (n * sizeof_T) SIZE_MOD ltac:(unfold SIZE_MOD; lia)).
  unfold wrap. unfold SIZE_MOD in *. lia.
Qed.

(** X3.  [max_size()] is exactly the bound below which the byte size of a
    request fits in [size_t]: for an element count [n >= 0],
    [n <= max_size()] holds if and only if [n * sizeof(T)] is below 2^64,
    and then the product computed by [allocate] is the true byte size. *)
Theorem max_size_bounds_byte_count n :
  0 < sizeof_T < SIZE_MOD → 0 ≤ n →
  (n ≤ max_size ↔ n * sizeof_T < SIZE_MOD)
  ∧ (n ≤ max_size → wrap (n * sizeof_T) = n * sizeof_T)
  ∧ (max_size < n → wrap (n * sizeof_T) < n * sizeof_T).
Proof.
  intros [Hs Hs'] Hn. unfold max_size.
  pose proof (Z.mul_div_le (SIZE_MOD - 1) sizeof_T Hs) as Hdown.
  pose proof (Z.mul_succ_div_gt (SIZE_MOD - 1) sizeof_T Hs) as Hup.
  assert (Hiff : n ≤ (SIZE_MOD - 1) / sizeof_T ↔ n * sizeof_T < SIZE_MOD).
  { split; intros H; nia. }
  split; [exact Hiff|]. split.
  - intros Hle. apply wrap_small. apply Hiff in Hle. nia.
  - intros Hgt. unfold wrap.
    assert (SIZE_MOD ≤ n * sizeof_T) by nia.
    pose proof (Z.mod_pos_bound (n * sizeof_T) SIZE_MOD ltac:(unfold SIZE_MOD; lia)). lia.
Qed.

(** X4.  [allocate] does not compare the request with [max_size()].  A
    request above it that no chunk can take (and that is at least
    [ChunkSize]) succeeds whenever the runtime supplies the wrapped byte
    count: the new chunk claims [n] slots, all handed out, but the runtime
    reserved fewer bytes than [n] elements occupy, so the block returned
    runs past the end of the reserved memory. *)
Theorem allocate_ignores_max_size h a n base h' :
  0 < sizeof_T < SIZE_MOD →
  max_size < n < SIZE_MOD → ChunkSize ≤ n →
  Forall chunk_ok (chunks_ a) → (∀ c, c ∈ chunks_ a → room c < n) →
  operator_new h (wrap (n * sizeof_T)) = Some (base, h') → base ≠ nullptr →
  allocate h a n
  = Allocated base h'
      {| chunks_ := chunks_ a ++ [ {| data := base; size := n; used := n |} ] |}
  ∧ heap_brk h' < base + n * sizeof_T.
Proof.
  intros Hs [Hgt Hn] HC Hok Hnone Hnew Hbase.
  assert (Hpos : 0 < n).
  { assert (0 ≤ max_size); [|lia]. unfold max_size.
    apply Z.div_pos; [unfold SIZE_MOD|]; lia. }
  split.
  - rewrite (allocate_new_chunk h a n Hok Hpos Hnone).
    rewrite (Z.max_r ChunkSize n HC), Hnew.
    by rewrite (proj2 (Z.eqb_neq base nullptr) Hbase).
  - destruct (max_size_bounds_byte_count_aux n Hs ltac:(lia) Hgt) as [Hlt Hge].
    apply operator_new_spec in Hnew as (-> & Hbrk & _). lia.
Qed.

End AllocatorBounds.

(** ** Filling chunks *)

Section FillFacts.
Import MyAllocator.
Context {targs : TemplateArgs}.

Lemma full_chunks_ok base m :
  1 ≤ ChunkSize < SIZE_MOD →
  Forall chunk_ok (full_chunks base m) ∧ ∀ c, c ∈ full_chunks base m → room c < 1.
Proof.
  intros HC. induction m as [|m [IH1 IH2]]; simpl.
  - split; [constructor|]. intros c Hc. inversion Hc.
  - split.
    + apply Forall_app. split; [done|]. constructor; [|constructor].
      unfold chunk_ok. simpl. lia.
    + intros c Hc. apply elem_of_app in Hc as [Hc|Hc]; [by apply IH2|].
      apply list_elem_of_singleton in Hc as ->. unfold room. simpl. lia.
Qed.

Lemma full_chunks_counts base m :
  used <$> full_chunks base m = replicate m ChunkSize
  ∧ size <$> full_chunks base m = replicate m ChunkSize.
Proof.
  induction m as [|m [IH1 IH2]]; [done|]. simpl.
  rewrite !fmap_app, IH1, IH2. simpl. by rewrite <- !replicate_S_end.
Qed.

(** With every chunk before the last one full and room in the last one,
    the last one serves the request. *)
Lemma allocate_last_fits h fulls c n :
  Forall chunk_ok (fulls ++ [c]) → (∀ c', c' ∈ fulls → room c' < n) →
  0 < n ≤ room c →
  allocate h {| chunks_ := fulls ++ [c] |} n
  = Allocated (slot c (used c)) h {| chunks_ := fulls ++ [set_used c (used c + n)] |}.
Proof.
  intros Hok Hfull [Hn Hroom]. unfold allocate.
  rewrite (proj2 (Z.eqb_neq n 0)) by lia. simpl.
  rewrite (allocate_scan_first _ n (length fulls) c Hok Hn).
  - replace (length fulls) with (length fulls + 0)%nat by lia.
    by rewrite insert_app_r.
  - replace (length fulls) with (length fulls + 0)%nat by lia.
    by rewrite lookup_app_r by lia; replace (length fulls + 0 - length fulls)%nat with 0%nat by lia.
  - done.
  - intros j c' Hj Hc'. apply Hfull. apply (list_elem_of_lookup_2 _ j).
    by rewrite lookup_app_l in Hc'.
Qed.

Lemma serve_fill_last h fulls c (j : nat) :
  Forall chunk_ok (fulls ++ [c]) → (∀ c', c' ∈ fulls → room c' < 1) →
  Z.of_nat j ≤ room c →
  ∃ ps, serve h {| chunks_ := fulls ++ [c] |} (replicate j 1)
        = Some (ps, h, {| chunks_ := fulls ++ [set_used c (used c + Z.of_nat j)] |})
        ∧ length ps = j.
Proof.
  revert c. induction j as [|j IH]; intros c Hok Hfull Hroom.
  - exists []. simpl. split; [|done]. destruct c as [d sz u]. unfold set_used. simpl.
    by rewrite Z.add_0_r.
  - simpl replicate. cbn [serve].
    rewrite allocate_last_fits by (try done; lia).
    apply Forall_app in Hok as [Hok1 Hok2]. apply Forall_inv in Hok2.
    destruct (IH (set_used c (used c + 1))) as (ps & -> & Hlen).
    + apply Forall_app. split; [done|]. apply Forall_singleton.
      destruct Hok2 as [? ?]. unfold chunk_ok, room in *. simpl. lia.
    + done.
    + unfold room in *. simpl. lia.
    + exists (slot c (used c) :: ps). split; [|simpl; by rewrite Hlen].
      unfold set_used. cbn [data size used].
      replace (used c + Z.of_nat (S j)) with (used c + 1 + Z.of_nat j) by lia.
      reflexivity.
Qed.

(** With [m] full chunks, [u] single requests, [1 <= u <= ChunkSize], open
    one more chunk and use [u] of its slots. *)
Lemma serve_one_chunk h (m : nat) (u : Z) :
  1 ≤ ChunkSize < SIZE_MOD → 1 ≤ u ≤ ChunkSize → 0 < heap_brk h →
  heap_brk h + Z.of_nat (S m) * chunk_bytes ≤ heap_end h →
  ∃ ps, serve (heap_after h m) {| chunks_ := full_chunks (heap_brk h) m |}
          (replicate (Z.to_nat u) 1)
        = Some (ps, heap_after h (S m),
                {| chunks_ := full_chunks (heap_brk h) m
                     ++ [ {| data := heap_brk h + Z.of_nat m * chunk_bytes;
                             size := ChunkSize; used := u |} ] |})
        ∧ length ps = Z.to_nat u.
Proof.
  intros HC Hu Hbrk Hend.
  destruct (full_chunks_ok (heap_brk h) m HC) as [Hok Hfull].
  assert (Hb : 1 ≤ chunk_bytes) by (unfold chunk_bytes; lia).
  replace (Z.to_nat u) with (S (Z.to_nat (u - 1))) by lia.
  simpl replicate. cbn [serve].
  rewrite (allocate_new_chunk (heap_after h m)
             {| chunks_ := full_chunks (heap_brk h) m |} 1 Hok ltac:(lia) Hfull).
  rewrite (Z.max_l ChunkSize 1) by lia.
  assert (Hnew : operator_new (heap_after h m) (wrap (ChunkSize * sizeof_T))
                 = Some (heap_brk h + Z.of_nat m * chunk_bytes, heap_after h (S m))).
  { unfold operator_new, heap_after. simpl. fold chunk_bytes.
    rewrite (proj2 (Z.leb_le _ _)) by lia. do 3 f_equal. lia. }
  rewrite Hnew. rewrite (proj2 (Z.eqb_neq _ nullptr)) by (unfold nullptr; nia).
  simpl chunks_.
  set (c := {| data := heap_brk h + Z.of_nat m * chunk_bytes; size := ChunkSize; used := 1 |}).
  destruct (serve_fill_last (heap_after h (S m)) (full_chunks (heap_brk h) m) c
              (Z.to_nat (u - 1))) as (ps & -> & Hlen).
  - apply Forall_app. split; [done|]. apply Forall_singleton. unfold chunk_ok. simpl. lia.
  - done.
  - unfold room. simpl. lia.
  - exists ((heap_brk h + Z.of_nat m * chunk_bytes) :: ps).
    split; [|simpl; by rewrite Hlen]. unfold set_used, c. cbn [data size used].
    replace (1 + Z.of_nat (Z.to_nat (u - 1))) with u by lia.
    reflexivity.
Qed.

(** [m * ChunkSize] single requests on a fresh allocator make [m] full
    chunks. *)
Lemma serve_full_chunks h (m : nat) :
  1 ≤ ChunkSize < SIZE_MOD → 0 < heap_brk h →
  heap_brk h + Z.of_nat m * chunk_bytes ≤ heap_end h →
  ∃ ps, serve h default_ctor (replicate (m * Z.to_nat ChunkSize) 1)
        = Some (ps, heap_after h m, {| chunks_ := full_chunks (heap_brk h) m |})
        ∧ length ps = (m * Z.to_nat ChunkSize)%nat.
Proof.
  intros HC Hbrk. assert (Hb : 1 ≤ chunk_bytes) by (unfold chunk_bytes; lia).
  induction m as [|m IH]; intros Hend.
  - exists []. simpl. split; [|done].
    replace (heap_after h 0) with h; [done|].
    destruct h as [b e]. unfold heap_after. simpl. f_equal. lia.
  - assert (Hm : Z.of_nat (S m) * chunk_bytes = Z.of_nat m * chunk_bytes + chunk_bytes)
      by (rewrite Nat2Z.inj_succ; lia).
    destruct IH as (ps1 & Hserve1 & Hlen1); [lia|].
    assert (HCC : 1 ≤ ChunkSize ≤ ChunkSize) by lia.
    destruct (serve_one_chunk h m ChunkSize HC HCC Hbrk Hend) as (ps2 & Hserve2 & Hlen2).
    exists (ps1 ++ ps2). split.
    + replace (S m * Z.to_nat ChunkSize)%nat
        with (m * Z.to_nat ChunkSize + Z.to_nat ChunkSize)%nat by lia.
      rewrite replicate_add.
      apply (serve_app _ _ _ _ _ _ _ _ _ _ Hserve1 Hserve2).
    + rewrite length_app. lia.
Qed.

(** X14.  Single-element requests fill the chunks one after the other.  On
    a freshly constructed allocator with [ChunkSize >= 1] and a runtime
    with room for the chunks, [m * ChunkSize + r] requests for one element
    ([0 <= r < ChunkSize]) all succeed and leave [m] full chunks, followed
    by one chunk with [r] slots used when [r > 0]; every chunk has
    capacity [ChunkSize]. *)
Theorem single_requests_fill_chunks_in_order h (m : nat) (r : Z) :
  1 ≤ ChunkSize < SIZE_MOD → 0 ≤ r < ChunkSize → 0 < heap_brk h →
  heap_brk h + (Z.of_nat m + (if decide (r = 0) then 0 else 1)) * chunk_bytes
    ≤ heap_end h →
  ∃ ps h' a',
    serve h default_ctor (replicate (m * Z.to_nat ChunkSize + Z.to_nat r) 1)
    = Some (ps, h', a')
    ∧ used <$> chunks_ a' = replicate m ChunkSize ++ (if decide (r = 0) then [] else [r])
    ∧ size <$> chunks_ a'
      = replicate (m + (if decide (r = 0) then 0 else 1)) ChunkSize.
Proof.
  intros HC Hr Hbrk Hend.
  assert (Hb : 1 ≤ chunk_bytes) by (unfold chunk_bytes; lia).
  destruct (full_chunks_counts (heap_brk h) m) as [Hused Hsize].
  destruct (decide (r = 0)) as [->|Hr0].
  - assert (Hend0 : heap_brk h + Z.of_nat m * chunk_bytes ≤ heap_end h) by lia.
    destruct (serve_full_chunks h m HC Hbrk Hend0) as (ps & Hserve & _).
    exists ps, (heap_after h m), {| chunks_ := full_chunks (heap_brk h) m |}.
    change (Z.to_nat 0) with 0%nat. rewrite !Nat.add_0_r, app_nil_r. by split.
  - assert (Hm : Z.of_nat (S m) * chunk_bytes = Z.of_nat m * chunk_bytes + chunk_bytes)
      by (rewrite Nat2Z.inj_succ; lia).
    assert (Hend1 : heap_brk h + Z.of_nat (S m) * chunk_bytes ≤ heap_end h) by lia.
    assert (Hend0 : heap_brk h + Z.of_nat m * chunk_bytes ≤ heap_end h) by lia.
    assert (Hr1 : 1 ≤ r ≤ ChunkSize) by lia.
    destruct (serve_full_chunks h m HC Hbrk Hend0) as (ps1 & Hserve1 & _).
    destruct (serve_one_chunk h m r HC Hr1 Hbrk Hend1) as (ps2 & Hserve2 & _).
    eexists (ps1 ++ ps2), _, _. split.
    + rewrite replicate_add. apply (serve_app _ _ _ _ _ _ _ _ _ _ Hserve1 Hserve2).
    + simpl. rewrite !fmap_app, Hused, Hsize. simpl. split; [done|].
      by rewrite replicate_add.
Qed.

End FillFacts.

(** ** Elements and the destructor *)

Section TeardownFacts.
Import MyAllocator.
Context {targs : TemplateArgs} {Obj : Type}.

(** X5.  Constructing an element where none lives and destroying it again
    is a round trip: the object memory is exactly what it was, and
    meanwhile only that address changed.  A second [destroy] at the address
    is undefined. *)
Theorem construct_destroy_round_trip {Args : Type} (ctor : Args → exception + Obj)
    (m : gmap Z Obj) (p : pointer) (args : Args) (m' : gmap Z Obj) :
  m !! p = None → construct ctor m p args = inr m' →
  is_Some (m' !! p)
  ∧ (∀ q, q ≠ p → m' !! q = m !! q)
  ∧ destroy m' p = Some m
  ∧ destroy m p = None.
Proof.
  intros Hp. unfold construct. destruct (ctor args) as [e|o]; [discriminate|].
  intros [= <-]. split; [rewrite lookup_insert_eq; by eexists|].
  split; [intros q Hq; by rewrite lookup_insert_ne|].
  unfold destroy. rewrite lookup_insert_eq, Hp. split; [|done].
  f_equal. rewrite delete_insert_eq. by apply delete_id.
Qed.

(** The inner loop of the destructor is defined exactly when every slot it
    visits holds an element; it ends the lifetime of these and touches
    nothing else. *)
Lemma dtor_elements_spec (m : gmap Z Obj) c i (rounds : nat) :
  0 < sizeof_T →
  (is_Some (dtor_elements m c i rounds)
   ↔ ∀ k, 0 ≤ k < Z.of_nat rounds → is_Some (m !! slot c (i + k)))
  ∧ ∀ m', dtor_elements m c i rounds = Some m' →
      (∀ k, 0 ≤ k < Z.of_nat rounds → m' !! slot c (i + k) = None)
      ∧ (∀ q, (∀ k, 0 ≤ k < Z.of_nat rounds → q ≠ slot c (i + k)) → m' !! q = m !! q).
Proof.
  intros Hs. revert m i. induction rounds as [|rounds IH]; intros m i.
  - simpl. split.
    + split; [intros _ k Hk; lia|by eexists].
    + intros m' [= <-]. split; [intros k Hk; lia|done].
  - cbn [dtor_elements]. change (ptr_add (data c) i) with (slot c i).
    unfold destroy. destruct (m !! slot c i) as [o|] eqn:Hi.
    + destruct (IH (delete (slot c i) m) (i + 1)) as [Hiff Hpost].
      assert (Hne : ∀ k, 0 ≤ k → slot c (i + 1 + k) ≠ slot c i).
      { intros k Hk Heq. apply slot_inj in Heq; [lia|done]. }
      split.
      * rewrite Hiff. split.
        -- intros Hall k Hk. destruct (decide (k = 0)) as [->|Hk0].
           ++ rewrite Z.add_0_r, Hi. by eexists.
           ++ specialize (Hall (k - 1) ltac:(lia)).
              replace (i + 1 + (k - 1)) with (i + k) in Hall by lia.
              rewrite lookup_delete_ne in Hall; [done|].
              intros Heq. apply slot_inj in Heq; [lia|done].
        -- intros Hall k Hk. rewrite lookup_delete_ne by (symmetry; apply Hne; lia).
           replace (i + 1 + k) with (i + (1 + k)) by lia. apply Hall. lia.
      * intros m' Hm'. destruct (Hpost m' Hm') as [Hgone Hsame]. split.
        -- intros k Hk. destruct (decide (k = 0)) as [->|Hk0].
           ++ rewrite Z.add_0_r, Hsame; [apply lookup_delete_eq|].
              intros k' Hk'. symmetry. apply Hne. lia.
           ++ replace (i + k) with (i + 1 + (k - 1)) by lia. apply Hgone. lia.
        -- intros q Hq. rewrite Hsame.
           ++ apply lookup_delete_ne. intros Heq. apply (Hq 0); [lia|].
              by rewrite Z.add_0_r.
           ++ intros k Hk. replace (i + 1 + k) with (i + (1 + k)) by lia.
              apply Hq. lia.
    + split; [|discriminate]. split.
      * intros [? ?]. discriminate.
      * intros Hall. specialize (Hall 0 ltac:(lia)).
        rewrite Z.add_0_r, Hi in Hall. by destruct Hall.
Qed.

(** The same for the loop over the chunks, which lie apart. *)
Lemma dtor_chunks_spec (m : gmap Z Obj) lo cs hi :
  0 < sizeof_T → Forall chunk_ok cs → laid_out lo cs hi →
  (is_Some (dtor_chunks m cs)
   ↔ ∀ p, handed {| chunks_ := cs |} p → is_Some (m !! p))
  ∧ ∀ m' deleted, dtor_chunks m cs = Some (m', deleted) →
      deleted = data <$> cs
      ∧ (∀ p, handed {| chunks_ := cs |} p → m' !! p = None)
      ∧ (∀ p, ¬ handed {| chunks_ := cs |} p → m' !! p = m !! p).
Proof.
  intros Hs. revert m lo. induction cs as [|c cs IH]; intros m lo Hok Hlay.
  - simpl. split.
    + split; [|by eexists]. intros _ p (c & k & Hc & _). inversion Hc.
    + intros m' deleted [= <- <-]. split; [done|]. split; [|done].
      intros p (c & k & Hc & _). inversion Hc.
  - inversion Hok as [|? ? Hc Hcs]; subst. destruct Hlay as [Hlo Hrest].
    destruct Hc as [Hu Hsz].
    assert (Hapart : ∀ c' k k', c' ∈ cs → 0 ≤ k < used c → 0 ≤ k' < used c' →
                     slot c' k' ≠ slot c k).
    { intros c' k k' Hc' Hk Hk' Heq.
      destruct (proj1 (Forall_forall _ _) Hcs c' Hc') as [Hu' _].
      destruct (laid_out_inside _ _ _ _ Hs Hcs Hrest Hc') as [Hbelow _].
      pose proof (slot_bounds c k Hs ltac:(lia)).
      pose proof (slot_bounds c' k' Hs ltac:(lia)). lia. }
    assert (Hsplit : ∀ p, handed {| chunks_ := c :: cs |} p
                     ↔ (∃ k, 0 ≤ k < used c ∧ p = slot c k) ∨ handed {| chunks_ := cs |} p).
    { intros p. split.
      - intros (c' & k & Hc' & Hk & ->). simpl in Hc'.
        apply elem_of_cons in Hc' as [->|Hc']; [left; by exists k|].
        right. by exists c', k.
      - intros [(k & Hk & ->)|(c' & k & Hc' & Hk & ->)].
        + exists c, k. split; [apply list_elem_of_here|done].
        + exists c', k. split; [by apply list_elem_of_further|done]. }
    cbn [dtor_chunks].
    destruct (dtor_elements_spec m c 0 (Z.to_nat (used c)) Hs) as [Hiff1 Hpost1].
    rewrite Z2Nat.id in Hiff1, Hpost1 by lia.
    destruct (dtor_elements m c 0 (Z.to_nat (used c))) as [m1|] eqn:Helems.
    + destruct (Hpost1 m1 eq_refl) as [Hgone1 Hsame1].
      assert (Hkeep : ∀ p, handed {| chunks_ := cs |} p → m1 !! p = m !! p).
      { intros p (c' & k' & Hc' & Hk' & ->). apply Hsame1.
        intros k Hk. rewrite Z.add_0_l. by apply Hapart. }
      destruct (IH m1 _ Hcs Hrest) as [Hiff2 Hpost2]. split.
      * split.
        -- intros Hsome p Hp. apply Hsplit in Hp as [(k & Hk & ->)|Hp].
           ++ specialize (proj1 Hiff1 ltac:(by eexists) k Hk) as Hlive.
              by rewrite Z.add_0_l in Hlive.
           ++ rewrite <- (Hkeep p Hp). apply Hiff2; [|done].
              destruct (dtor_chunks m1 cs) as [[? ?]|]; [by eexists|].
              by destruct Hsome.
        -- intros Hall.
           assert (Hrec : is_Some (dtor_chunks m1 cs)).
           { apply Hiff2. intros p Hp. rewrite (Hkeep p Hp). apply Hall, Hsplit. by right. }
           destruct Hrec as [[m2 deleted] ->]. by eexists.
      * intros m' deleted Hd.
        destruct (dtor_chunks m1 cs) as [[m2 deleted2]|] eqn:Hrec; [|discriminate].
        injection Hd as <- <-. destruct (Hpost2 m2 deleted2 eq_refl) as (-> & Hgone2 & Hsame2).
        split; [done|]. split.
        -- intros p Hp. apply Hsplit in Hp as [(k & Hk & ->)|Hp]; [|by apply Hgone2].
           rewrite Hsame2.
           ++ specialize (Hgone1 k Hk). by rewrite Z.add_0_l in Hgone1.
           ++ intros (c' & k' & Hc' & Hk' & Heq). by apply (Hapart c' k k' Hc' Hk Hk').
        -- intros p Hp. rewrite Hsame2 by (intros Hin; apply Hp, Hsplit; by right).
           apply Hsame1. intros k Hk Heq. apply Hp, Hsplit. left. exists k.
           by rewrite Z.add_0_l in Heq.
    + split; [|discriminate]. split.
      * intros [? ?]. discriminate.
      * intros Hall. exfalso.
        assert (Hsome : is_Some (@None (gmap Z Obj))); [|by destruct Hsome].
        apply Hiff1. intros k Hk. rewrite Z.add_0_l. apply Hall, Hsplit. left. by exists k.
Qed.

(** X6.  [~my_allocator()] is defined exactly when every slot handed out
    (every slot below the used count of a chunk) holds a live element: it
    calls the destructor of each of them, whether or not the client
    constructed one there or has already destroyed it.  When it is defined
    it passes the base of every chunk to [operator delete], once, in
    creation order, leaves no element alive in any slot handed out, and
    touches no other object. *)
Theorem dtor_needs_every_handed_slot_alive (m : gmap Z Obj) h a :
  0 < sizeof_T → alloc_inv h a →
  (is_Some (dtor m a) ↔ ∀ p, handed a p → is_Some (m !! p))
  ∧ ∀ m' deleted, dtor m a = Some (m', deleted) →
      deleted = data <$> chunks_ a
      ∧ (∀ p, handed a p → m' !! p = None)
      ∧ (∀ p, ¬ handed a p → m' !! p = m !! p).
Proof.
  intros Hs [Hok Hlay]. destruct a as [cs]. unfold dtor. simpl in *.
  by apply (dtor_chunks_spec m 1 cs (heap_brk h)).
Qed.

End TeardownFacts.

(** * Further properties of the container *)

Section ContainerMoreFacts.
Import MyContainer.
Context {T : Type} {elt : ElementType T}.
Context {A : Type} {traits : Allocator A} {laws : LawfulAllocator A}.

(** What a successful append leaves alone: the new node is in storage the
    allocator had not handed out, nothing handed out is taken back, and
    only the new node and the old cells of the container are written. *)
Lemma emplace_back_frame {Args : Type} (T_ctor : Args → exception + T)
    (s : State T) (c : my_container A) args cells s' c' :
  represents s c cells →
  emplace_back T_ctor s c args = Returns s' c' →
  ¬ alloc_handed (allocator_ c) (tail_ c')
  ∧ (∀ q, alloc_handed (allocator_ c) q → alloc_handed (allocator_ c') q)
  ∧ (∀ q, q ∉ cells.*1 → q ≠ tail_ c' → mem s' !! q = mem s !! q).
Proof.
  intros (Hchain & _ & Htail & _ & _ & Hok). unfold emplace_back.
  destruct (traits_allocate (heap s) (allocator_ c) 1) as [p h a|e h a] eqn:Halloc;
    [|discriminate].
  destruct (allocate_lawful _ _ _ _ _ Hok Halloc) as (_ & _ & Hfresh & _ & Hkeep).
  unfold MyAllocator.construct, Node_ctor. destruct (T_ctor args) as [e|d].
  { destruct (traits_deallocate h a p 1). discriminate. }
  unfold link_back. destruct (head_ c =? nullptr) eqn:Hhead.
  - intros [= <- <-]. simpl. split; [done|]. split; [done|].
    intros q _ Hq. by rewrite lookup_insert_ne.
  - unfold set_next.
    destruct (<[p:={| data := d; next := nullptr |}]> (mem s) !! tail_ c);
      [|discriminate].
    intros [= <- <-]. simpl. split; [done|]. split; [done|].
    intros q Hq Hqp. destruct cells as [|cell rest _] using rev_ind.
    + simpl in Hchain. rewrite Hchain in Hhead. discriminate.
    + destruct cell as [qt vt]. rewrite back_addr_snoc in Htail.
      rewrite !lookup_insert_ne; [done|done|].
      rewrite Htail. intros <-. apply Hq. rewrite fmap_app.
      apply elem_of_app. right. apply list_elem_of_here.
Qed.


(** Every cell of a chain is a live node. *)
Lemma chain_lookup (m : gmap Z (Node T)) p cells q :
  chain m p cells → q ∈ cells.*1 → is_Some (m !! q).
Proof.
  revert p. induction cells as [|cell rest IH]; intros p Hchain Hq; [inversion Hq|].
  destruct Hchain as (_ & _ & nxt & Hcell & Hrest). simpl in Hq.
  apply elem_of_cons in Hq as [->|Hq]; [by eexists|]. by apply (IH nxt).
Qed.

(** An append that returns: the copy of the value did not throw, the new
    node is in the storage the allocator returned, and no object comes to
    be or ceases to be but the new node. *)
Lemma push_back_returns (s : State T) (c : my_container A) v s' c' :
  push_back s c v = Returns s' c' →
  T_copy_throws v = None
  ∧ traits_allocate (heap s) (allocator_ c) 1
    = Allocated (tail_ c') (heap s') (allocator_ c')
  ∧ ∀ q, q ≠ tail_ c' → (is_Some (mem s' !! q) ↔ is_Some (mem s !! q)).
Proof.
  unfold push_back.
  destruct (traits_allocate (heap s) (allocator_ c) 1) as [p h a|e h a]; [|discriminate].
  unfold MyAllocator.construct, Node_ctor, T_copy.
  destruct (T_copy_throws v) as [e|].
  { destruct (traits_deallocate h a p 1). discriminate. }
  unfold link_back. destruct (head_ c =? nullptr).
  - intros [= <- <-]. simpl. split; [done|]. split; [done|].
    intros q Hq. by rewrite lookup_insert_ne.
  - unfold set_next.
    destruct (<[p:={| data := v; next := nullptr |}]> (mem s) !! tail_ c) as [nd|] eqn:Htail;
      [|discriminate].
    intros [= <- <-]. simpl. split; [done|]. split; [done|].
    intros q Hq. destruct (decide (q = tail_ c)) as [->|Hne].
    + rewrite lookup_insert_eq. rewrite lookup_insert_ne in Htail by done.
      rewrite Htail. split; intros _; by eexists.
    + by rewrite !lookup_insert_ne.
Qed.


(** X9.  Move construction transfers the nodes without touching them: the
    new container has the source's [head_], [tail_] and [size_], so
    iteration over it yields the source's values in order, and the source
    is left empty: size 0, [empty()], and an iteration that visits
    nothing. *)
Theorem move_ctor_transfers_nodes (s : State T) (other : my_container A) cells
    (fuel : nat) :
  chain (mem s) (head_ other) cells → (length cells < fuel)%nat →
  let moved := move_ctor other in
  head_ moved.1 = head_ other ∧ tail_ moved.1 = tail_ other
  ∧ size moved.1 = size other
  ∧ traverse fuel (mem s) (begin_ moved.1) (end_ moved.1) = Some (Some cells.*2)
  ∧ head_ moved.2 = nullptr ∧ tail_ moved.2 = nullptr
  ∧ size moved.2 = 0 ∧ empty moved.2 = true
  ∧ traverse fuel (mem s) (begin_ moved.2) (end_ moved.2) = Some (Some []).
Proof.
  intros Hchain Hfuel. unfold move_ctor.
  destruct (traits_move_construct (allocator_ other)) as [a a']. simpl.
  repeat (split; [done|]). split.
  - unfold begin_, end_. simpl. by apply traverse_chain.
  - repeat (split; [done|]). by destruct fuel.
Qed.

(** X10.  Move assignment between two distinct container objects, the
    target holding [cells] and the source a chain [ocells] of other nodes:
    it returns; the target's former nodes are destroyed, and nothing else
    is touched; the target takes over the source's [head_], [tail_] and
    [size_], so it holds the source's nodes; the source is left empty; the
    other container objects are untouched. *)
Theorem move_assign_transfers_nodes (s : State T) (objs : gmap Z (my_container A))
    (this other : pointer) c o cells ocells :
  this ≠ other → objs !! this = Some c → objs !! other = Some o →
  represents s c cells → chain (mem s) (head_ o) ocells →
  (∀ q, q ∈ cells.*1 → q ∉ ocells.*1) →
  ∃ s' c' o',
    move_assign s objs this other = Returns s' (<[other := o']> (<[this := c']> objs))
    ∧ head_ c' = head_ o ∧ tail_ c' = tail_ o ∧ size_ c' = size_ o
    ∧ chain (mem s') (head_ c') ocells
    ∧ head_ o' = nullptr ∧ tail_ o' = nullptr ∧ size_ o' = 0
    ∧ (∀ q, q ∈ cells.*1 → mem s' !! q = None)
    ∧ (∀ q, q ∉ cells.*1 → mem s' !! q = mem s !! q).
Proof.
  intros Hne Hthis Hother (Hchain & Hnodup & _ & _ & Hhanded & Hok) Hochain Hdisj.
  unfold move_assign. rewrite (proj2 (Z.eqb_neq _ _) Hne). simpl.
  rewrite Hthis, Hother. unfold clear.
  destruct (clear_loop_chain (S (base.size (mem s))) (heap s) (mem s) (allocator_ c)
              (head_ c) cells Hchain Hnodup Hhanded Hok ltac:(lia))
    as (h' & m' & a' & -> & _ & Hgone & Hsame).
  simpl. destruct (traits_move_assign a' (allocator_ o)) as [a1 a2].
  eexists _, _, _. split; [reflexivity|]. simpl.
  repeat (split; [done|]). split; [|done].
  apply (chain_frame (mem s)); [done|]. intros q Hq. apply Hsame.
  intros Hin. by apply (Hdisj q Hin).
Qed.

(** X11.  On a container that holds [cells], [size()], [empty()] and
    iteration agree: [size()] is the number of cells, [empty()] holds
    exactly when there is none, which is exactly when [begin() == end()],
    and iteration from [begin()] to [end()] visits [size()] values, those
    of the cells in order. *)
Theorem size_empty_and_iteration_agree (s : State T) (c : my_container A) cells :
  represents s c cells →
  size c = Z.of_nat (length cells)
  ∧ (empty c = true ↔ cells = [])
  ∧ empty c = iterator_eq (begin_ c) (end_ c)
  ∧ ∀ fuel : nat, (length cells < fuel)%nat →
      ∃ vs, traverse fuel (mem s) (begin_ c) (end_ c) = Some (Some vs)
        ∧ vs = cells.*2 ∧ Z.of_nat (length vs) = size c.
Proof.
  intros (Hchain & _ & _ & Hsize & _). unfold size, empty, iterator_eq, begin_, end_.
  simpl. split; [done|]. split; [|split].
  - rewrite Hsize, Z.eqb_eq. destruct cells; simpl; [done|]. split; [lia|discriminate].
  - rewrite Hsize. destruct cells as [|cell rest]; simpl in *.
    + by rewrite Hchain.
    + destruct Hchain as (-> & Hnn & _).
      rewrite (proj2 (Z.eqb_neq _ _) Hnn). first [reflexivity|apply Z.eqb_neq; lia].
  - intros fuel Hfuel. exists cells.*2. split; [by apply traverse_chain|].
    split; [done|]. by rewrite length_fmap.
Qed.

End ContainerMoreFacts.

(** ** The container over the pool allocator *)

Section PoolContainerFacts.
Import MyContainer.
Context {targs : TemplateArgs} {T : Type} {elt : ElementType T}.

(** Over the pool, [clear] gives nothing back: heap and allocator are as
    before. *)
Lemma clear_loop_pool fuel h (m : gmap Z (Node T)) (a : MyAllocator.my_allocator) p s' c' :
  clear_loop fuel h m a p = Returns s' c' → heap s' = h ∧ allocator_ c' = a.
Proof.
  revert m p. induction fuel as [|fuel IH]; intros m p; simpl.
  - destruct (p =? nullptr); [|discriminate]. by intros [= <- <-].
  - destruct (p =? nullptr); [by intros [= <- <-]|].
    destruct (m !! p); [|discriminate].
    destruct (MyAllocator.destroy m p); [|discriminate]. apply IH.
Qed.


(** X13.  Destroying a non-empty [my_container] over the pool allocator
    calls the destructor of every node twice: [clear()] ends the lifetime
    of each node, and the destructor of the member allocator then calls
    the destructor of every used slot of every chunk, these nodes
    included.  In terms of object lifetimes the second call is undefined
    behaviour. *)
Theorem pool_teardown_destroys_nodes_twice (s : State T)
    (c : my_container MyAllocator.my_allocator) cells :
  represents (laws := my_allocator_lawful) s c cells → cells ≠ [] →
  (∃ s' c', clear s c = Returns s' c'
            ∧ allocator_ c' = allocator_ c
            ∧ ∀ q, q ∈ cells.*1 →
                handed (allocator_ c') q ∧ mem s' !! q = None)
  ∧ pool_dtor s c = None.
Proof.
  intros (Hchain & Hnodup & _ & _ & Hhanded & Hok) Hne.
  destruct (clear_loop_chain (laws := my_allocator_lawful)
              (S (base.size (mem s))) (heap s) (mem s) (allocator_ c)
              (head_ c) cells Hchain Hnodup Hhanded Hok ltac:(lia))
    as (h' & m' & a' & Hloop & _ & Hgone & _).
  destruct (clear_loop_pool _ _ _ _ _ _ _ Hloop) as [_ Ha]. simpl in Ha. subst a'.
  assert (Hdead : ∀ q, q ∈ cells.*1 → handed (allocator_ c) q ∧ m' !! q = None).
  { intros q Hq. split; [|by apply Hgone].
    by apply (proj1 (Forall_forall _ _) Hhanded). }
  split.
  - eexists _, _. split; [exact Hloop|]. by split.
  - unfold pool_dtor, clear. rewrite Hloop. simpl. unfold MyAllocator.dtor.
    destruct Hok as [([Hs _] & _) [Hcok Hlay]].
    destruct (dtor_chunks_spec m' 1 (MyAllocator.chunks_ (allocator_ c)) (heap_brk (heap s))
                Hs Hcok Hlay) as [Hiff _].
    destruct (MyAllocator.dtor_chunks m' _) as [r|] eqn:Hd; [exfalso|done].
    destruct cells as [|[q v] rest]; [done|].
    destruct (Hdead q ltac:(apply list_elem_of_here)) as [Hq Hnone].
    assert (Hlive : is_Some (m' !! q)).
    { apply (proj1 Hiff); [by eexists|]. by destruct (allocator_ c). }
    rewrite Hnone in Hlive. by destruct Hlive.
Qed.

(** ** Constructors that are left by an exception *)

(** One append on a container over the pool where storage that can still
    be handed out holds no object. *)
Lemma pool_push_back (s : State T) (c : my_container MyAllocator.my_allocator) v cells :
  represents (laws := my_allocator_lawful) s c cells →
  storage_free (heap s) (mem s) (allocator_ c) →
  size_ c + 1 < SIZE_MOD →
  match push_back s c v with
  | Returns s' c' =>
      T_copy_throws v = None
      ∧ represents (laws := my_allocator_lawful) s' c' (cells ++ [(tail_ c', v)])
      ∧ extended s (allocator_ c) cells s' (allocator_ c') [(tail_ c', v)]
  | Throws e s' c' =>
      represents (laws := my_allocator_lawful) s' c' cells
      ∧ mem s' = mem s
      ∧ storage_free (heap s') (mem s') (allocator_ c')
      ∧ ((e = bad_alloc ∧ allocator_ c' = allocator_ c ∧ heap s' = heap s
          ∧ operator_new (heap s) (wrap (Z.max ChunkSize 1 * sizeof_T)) = None)
         ∨ (T_copy_throws v = Some e
            ∧ ∃ p, handed (allocator_ c') p ∧ mem s !! p = None))
  | Undefined | OutOfFuel => False
  end.
Proof.
  intros Hrep Hfree Hroom.
  pose proof Hrep as (Hchain & _ & _ & _ & _ & [Htargs Hinv]).
  pose proof Htargs as ([Hs _] & _).
  pose proof (emplace_back_spec (laws := my_allocator_lawful) T_copy s c v cells Hrep Hroom)
    as Hspec.
  pose proof (emplace_back_frame (laws := my_allocator_lawful) T_copy s c v cells) as Hframe.
  rewrite <- push_back_is_emplace_back in Hspec, Hframe.
  pose proof (push_back_returns s c v) as Hret.
  destruct (push_back s c v) as [s' c'|e s' c'| |]; [| |done..].
  - destruct (Hret s' c' eq_refl) as (Hcopy & Halloc & Hlive). simpl in Halloc.
    destruct Hspec as (d & Hd & Hrep' & _).
    unfold T_copy in Hd. rewrite Hcopy in Hd. injection Hd as <-.
    destruct (Hframe s' c' Hrep eq_refl) as (_ & _ & Hsame).
    destruct (allocate_one_free _ _ _ _ _ _ Htargs Hinv Hfree Halloc) as [Hnone Hfree'].
    split; [done|]. split; [done|]. split; [|split; [|split; [|split]]].
    + apply Hfree'. intros q Hq Hq'. by apply Hlive.
    + intros q. rewrite (allocate_one_handed _ _ _ _ _ Htargs Hinv Halloc q). simpl.
      by rewrite list_elem_of_singleton.
    + intros q Hq. simpl in Hq. by apply list_elem_of_singleton in Hq as ->.
    + intros q Hq1 Hq2. apply Hsame; [done|]. intros ->. apply Hq2. simpl.
      apply list_elem_of_here.
    + intros q Hq. destruct (decide (q = tail_ c')) as [->|Hne].
      * by destruct (not_live _ _ Hnone).
      * by apply Hlive.
  - destruct Hspec as (_ & _ & _ & Hmem & Hrep' & Hwhy).
    split; [done|]. split; [done|].
    destruct Hwhy as [(h & a & Halloc & Hh & Ha)|(p & h & a & Halloc & Hcopy & Hde)];
      simpl in Halloc.
    + destruct (allocate_one_throws _ _ _ _ _ Hs Hinv Halloc) as (-> & -> & -> & Hnew).
      split; [by rewrite Hh, Ha, Hmem|]. left. done.
    + simpl in Hde. unfold MyAllocator.deallocate in Hde. injection Hde as Hh Ha.
      destruct (allocate_one_free _ _ _ _ _ _ Htargs Hinv Hfree Halloc) as [Hnone Hfree'].
      split.
      * rewrite Hh, Ha, Hmem. apply Hfree'. by intros q _ Hq.
      * right. split.
        { unfold T_copy in Hcopy. destruct (T_copy_throws v); [|discriminate].
          by injection Hcopy as ->. }
        exists p. split; [|done]. rewrite Ha.
        apply (allocate_one_handed _ _ _ _ _ Htargs Hinv Halloc). by right.
Qed.

(** A sequence of appends that all return. *)
Lemma pool_push_back_list vs (s : State T) (c : my_container MyAllocator.my_allocator)
    cells s' c' :
  represents (laws := my_allocator_lawful) s c cells →
  storage_free (heap s) (mem s) (allocator_ c) →
  Z.of_nat (length cells) + Z.of_nat (length vs) < SIZE_MOD →
  push_back_list s c vs = Returns s' c' →
  Forall (λ v, T_copy_throws v = None) vs
  ∧ ∃ new, new.*2 = vs
      ∧ represents (laws := my_allocator_lawful) s' c' (cells ++ new)
      ∧ extended s (allocator_ c) cells s' (allocator_ c') new.
Proof.
  revert s c cells. induction vs as [|v vs IH]; intros s c cells Hrep Hfree Hlen; simpl.
  - intros [= <- <-]. split; [constructor|]. exists []. rewrite app_nil_r.
    split; [done|]. split; [done|]. split; [done|]. split.
    { intros q. split; [by left|]. intros [Hq|Hq]; [done|inversion Hq]. }
    split; [intros q Hq; inversion Hq|]. by split.
  - pose proof Hrep as (_ & _ & _ & Hsize & _).
    assert (Hroom : size_ c + 1 < SIZE_MOD) by (simpl in Hlen; lia).
    pose proof (pool_push_back s c v cells Hrep Hfree Hroom) as Hpush.
    destruct (push_back s c v) as [s1 c1|e s1 c1| |]; [|discriminate..].
    destruct Hpush as (Hcopy & Hrep1 & Hfree1 & Hex1 & Hnone1 & Hsame1 & Hlive1).
    intros Hrun.
    assert (Hlen1 : Z.of_nat (length (cells ++ [(tail_ c1, v)])) + Z.of_nat (length vs)
                    < SIZE_MOD) by (rewrite length_app; simpl in *; lia).
    destruct (IH s1 c1 _ Hrep1 Hfree1 Hlen1 Hrun)
      as (Hcopies & new & Hvals & Hrep2 & Hfree2 & Hex2 & Hnone2 & Hsame2 & Hlive2).
    split; [by constructor|]. exists ((tail_ c1, v) :: new). rewrite <- app_assoc in Hrep2.
    split; [simpl; by f_equal|]. split; [done|]. split; [done|].
    split; [|split; [|split]].
    + intros q. rewrite Hex2, Hex1. simpl. rewrite list_elem_of_singleton, elem_of_cons.
      tauto.
    + intros q Hq. simpl in Hq. apply elem_of_cons in Hq as [->|Hq].
      * apply Hnone1. simpl. apply list_elem_of_here.
      * destruct (mem s !! q) as [nd|] eqn:Hlive; [exfalso|done].
        apply (not_live _ _ (Hnone2 q Hq)), Hlive1. by eexists.
    + intros q Hq1 Hq2. simpl in Hq2. apply not_elem_of_cons in Hq2 as [Hq2 Hq3].
      rewrite Hsame2; [| |done].
      * apply Hsame1; [done|]. intros Hin. simpl in Hin.
        by apply list_elem_of_singleton in Hin.
      * rewrite fmap_app. intros Hin. apply elem_of_app in Hin as [Hin|Hin]; [done|].
        simpl in Hin. by apply list_elem_of_singleton in Hin.
    + intros q Hq. by apply Hlive2, Hlive1.
Qed.

(** A constructor that appends the values [vs] to the container it
    builds, whose allocator starts out with every slot it handed out
    holding a node.  It returns when all appends return.  When the
    runtime cannot supply a chunk it is left by [bad_alloc], and the
    destructor of [allocator_] has ended the lifetime of every node in a
    slot the allocator handed out, those made by the constructor
    included.  When the copy of a value throws, the slot taken for it
    counts as used but holds no node, and the destructor of [allocator_]
    is undefined. *)
Lemma pool_ctor_unwind vs (s : State T) (c : my_container MyAllocator.my_allocator) :
  represents (laws := my_allocator_lawful) s c [] →
  storage_free (heap s) (mem s) (allocator_ c) →
  (∀ q, handed (allocator_ c) q → is_Some (mem s !! q)) →
  Z.of_nat (length vs) < SIZE_MOD →
  match ctor_unwind (push_back_list s c vs) with
  | Returns s' c' =>
      Forall (λ v, T_copy_throws v = None) vs
      ∧ ∃ new, new.*2 = vs
          ∧ represents (laws := my_allocator_lawful) s' c' new
          ∧ extended s (allocator_ c) [] s' (allocator_ c') new
  | Throws e s' c' =>
      e = bad_alloc
      ∧ operator_new (heap s') (wrap (Z.max ChunkSize 1 * sizeof_T)) = None
      ∧ (∀ q, handed (allocator_ c) q → mem s' !! q = None)
      ∧ (∀ q, ¬ handed (allocator_ c) q → mem s' !! q = mem s !! q)
  | Undefined => ∃ v e, v ∈ vs ∧ T_copy_throws v = Some e
  | OutOfFuel => False
  end.
Proof.
  intros Hrep Hfree Hfull Hlen.
  pose proof (push_back_list_spec (laws := my_allocator_lawful) vs s c [] Hrep) as Hspec.
  pose proof (pool_push_back_list vs s c []) as Hret.
  pose proof (push_back_list_throws_at (laws := my_allocator_lawful) vs s c []) as Hthrows.
  simpl in Hspec, Hret, Hthrows.
  destruct (push_back_list s c vs) as [s' c'|e s' c'| |]; cbn [ctor_unwind].
  - by apply (Hret s' c' Hrep Hfree).
  - destruct (Hthrows e s' c' Hrep Hlen eq_refl)
      as (pushed & v & rest & s1 & c1 & new0 & Hvs & Hrun & _ & _ & Hlast).
    assert (Hlen0 : Z.of_nat (length pushed) < SIZE_MOD).
    { rewrite Hvs, length_app in Hlen. lia. }
    destruct (pool_push_back_list pushed s c [] s1 c1 Hrep Hfree Hlen0 Hrun)
      as (_ & new & Hvals & Hrep1 & Hfree1 & Hex1 & Hnone1 & Hsame1 & Hlive1).
    simpl in Hrep1. pose proof Hrep1 as (Hchain1 & _ & _ & Hsize1 & _).
    assert (Hroom1 : size_ c1 + 1 < SIZE_MOD).
    { rewrite Hsize1, <- (length_fmap snd new), Hvals.
      rewrite Hvs, length_app in Hlen. simpl in Hlen. lia. }
    pose proof (pool_push_back s1 c1 v new Hrep1 Hfree1 Hroom1) as Hpush.
    rewrite Hlast in Hpush. destruct Hpush as (Hrep' & Hmem & Hfree' & Hwhy).
    pose proof Hrep' as (_ & _ & _ & _ & _ & [([Hs _] & _) [Hok' Hlay']]).
    destruct (dtor_chunks_spec (mem s') 1 (MyAllocator.chunks_ (allocator_ c'))
                (heap_brk (heap s')) Hs Hok' Hlay') as [Hiff Hpost].
    simpl. unfold MyAllocator.dtor.
    destruct Hwhy as [(-> & Ha & Hh & Hnew)|(Hcopy & p & Hp & Hnone)].
    + assert (Hall : ∀ q, handed (allocator_ c') q → is_Some (mem s' !! q)).
      { intros q Hq. rewrite Ha in Hq. rewrite Hmem. apply Hex1 in Hq as [Hq|Hq].
        - by apply Hlive1, Hfull.
        - by apply (chain_lookup _ _ _ _ Hchain1). }
      destruct (proj2 Hiff Hall) as [[m2 deleted] Hd]. rewrite Hd.
      destruct (Hpost m2 deleted Hd) as (_ & Hgone & Hkept). simpl.
      split; [done|]. split; [by rewrite Hh|]. split.
      * intros q Hq. apply Hgone. change (handed (allocator_ c') q).
        rewrite Ha. apply Hex1. by left.
      * intros q Hq. destruct (decide (q ∈ new.*1)) as [Hin|Hout].
        -- rewrite (Hnone1 q Hin). apply Hgone. change (handed (allocator_ c') q).
           rewrite Ha. apply Hex1. by right.
        -- rewrite Hkept.
           ++ rewrite Hmem. apply Hsame1; [|done]. intros Hx. inversion Hx.
           ++ change (¬ handed (allocator_ c') q). rewrite Ha. intros Hq'.
              apply Hex1 in Hq' as [Hq'|Hq']; done.
    + destruct (MyAllocator.dtor_chunks (mem s') (MyAllocator.chunks_ (allocator_ c')))
        as [[m2 deleted]|] eqn:Hd.
      * exfalso. rewrite <- Hmem in Hnone.
        by apply (not_live _ _ Hnone), (proj1 Hiff ltac:(by eexists) p).
      * exists v, e. split; [|done]. rewrite Hvs. apply elem_of_app. right.
        apply list_elem_of_here.
  - exfalso. by apply Hspec.
  - by apply Hspec.
Qed.


(** X8.  The constructor from an initializer list over the pool, in a
    state where the heap the runtime has yet to give holds no object.
    When it returns, the container has as many elements as the list,
    iteration yields exactly the list, in order, and no object that was
    alive is written.  When the runtime cannot supply a chunk the
    constructor is left by [bad_alloc], and the nodes made so far are
    gone: the destructor of [allocator_] has ended their lifetime, and the
    objects alive are those alive before.  When the copy of a value
    throws, the behaviour is undefined: the slot taken for that value
    counts as used, holds no node, and the destructor of [allocator_]
    calls the node destructor on it. *)
Theorem init_list_ctor_holds_the_list_or_unwinds (s : State T) (init : list T)
    (alloc : MyAllocator.my_allocator) :
  targs_ok → 0 < heap_brk (heap s) →
  (∀ q, heap_brk (heap s) ≤ q < heap_end (heap s) → mem s !! q = None) →
  Z.of_nat (length init) < SIZE_MOD →
  match init_list_ctor s init alloc with
  | Returns s' c' =>
      Forall (λ v, T_copy_throws v = None) init
      ∧ size c' = Z.of_nat (length init)
      ∧ empty c' = bool_decide (init = [])
      ∧ (∀ fuel : nat, (length init < fuel)%nat →
           traverse fuel (mem s') (begin_ c') (end_ c') = Some (Some init))
      ∧ (∀ q, is_Some (mem s !! q) → mem s' !! q = mem s !! q)
  | Throws e s' c' =>
      e = bad_alloc
      ∧ operator_new (heap s') (wrap (Z.max ChunkSize 1 * sizeof_T)) = None
      ∧ mem s' = mem s
  | Undefined => ∃ v e, v ∈ init ∧ T_copy_throws v = Some e
  | OutOfFuel => False
  end.
Proof.
  intros Htargs Hbrk Hheap Hlen. unfold init_list_ctor.
  assert (Hnone : ∀ q, ¬ handed (allocator_ (alloc_ctor alloc)) q).
  { intros q (c & k & Hc & _). inversion Hc. }
  assert (Hrep : represents (laws := my_allocator_lawful) s (alloc_ctor alloc) []).
  { split; [done|]. split; [apply NoDup_nil_2|]. split; [done|]. split; [done|].
    split; [constructor|]. split; [exact Htargs|]. by apply alloc_inv_default. }
  assert (Hfree : storage_free (heap s) (mem s) (allocator_ (alloc_ctor alloc))).
  { intros q Hq. right. split.
    - intros (c & Hc & _). inversion Hc.
    - intros Hin. by apply (not_live _ _ (Hheap q Hin)). }
  pose proof (pool_ctor_unwind init s (alloc_ctor alloc) Hrep Hfree
                ltac:(intros q Hq; by destruct (Hnone q)) Hlen) as Hend.
  destruct (ctor_unwind (push_back_list s (alloc_ctor alloc) init))
    as [s' c'|e s' c'| |]; [| |done..].
  - destruct Hend as (Hcopies & new & Hvals & (Hchain & _ & _ & Hsize & _)
                      & _ & _ & Hfresh & Hsame & _).
    assert (Hlength : length new = length init) by (by rewrite <- Hvals, length_fmap).
    split; [done|]. split; [unfold size; by rewrite Hsize, Hlength|]. split; [|split].
    + unfold empty. rewrite Hsize, Hlength. destruct init; [done|].
      simpl length. rewrite bool_decide_eq_false_2 by done. apply Z.eqb_neq. lia.
    + intros fuel Hfuel. unfold begin_, end_. rewrite <- Hvals.
      apply traverse_chain; [done|lia].
    + intros q Hq. apply Hsame; [intros Hin; inversion Hin|].
      intros Hin. by apply (not_live _ _ (Hfresh q Hin)).
  - destruct Hend as (-> & Hnew & _ & Hkept).
    split; [done|]. split; [done|]. apply map_eq. intros q. apply Hkept, Hnone.
Qed.

End PoolContainerFacts.

(** * Properties of [factorial] *)

Section FactorialFacts.
Import Main.

Lemma zfact_pos k : 0 < zfact k.
Proof. induction k as [|k IH]; simpl zfact; [lia|]. nia. Qed.

Lemma zfact_mono j k : (j ≤ k)%nat → zfact j ≤ zfact k.
Proof.
  induction 1 as [|k _ IH]; [lia|]. simpl zfact.
  pose proof (zfact_pos k). pose proof (zfact_pos j). nia.
Qed.

(** The loop multiplies up to [(j + rounds)!] from [j!], or overflows on
    the way. *)
Lemma factorial_loop_spec result_max rounds (j : nat) :
  zfact j ≤ result_max →
  factorial_loop result_max rounds (Z.of_nat j + 1) (zfact j)
  = if zfact (j + rounds) <=? result_max then Some (zfact (j + rounds)) else None.
Proof.
  revert j. induction rounds as [|rounds IH]; intros j Hj.
  - rewrite Nat.add_0_r. simpl. by rewrite (proj2 (Z.leb_le _ _) Hj).
  - cbn [factorial_loop].
    replace (zfact j * (Z.of_nat j + 1)) with (zfact (S j)) by (simpl zfact; lia).
    replace (Z.of_nat j + 1 + 1) with (Z.of_nat (S j) + 1) by lia.
    replace (j + S rounds)%nat with (S j + rounds)%nat by lia.
    destruct (Z.leb_spec (zfact (S j)) result_max) as [Hle|Hgt].
    + by apply IH.
    + pose proof (zfact_mono (S j) (S j + rounds) ltac:(lia)).
      by rewrite (proj2 (Z.leb_gt _ _)) by lia.
Qed.

Lemma factorial_loop_from_one result_max n :
  1 ≤ result_max →
  factorial_loop result_max (Z.to_nat (n - 1)) 2 1
  = if zfact (Z.to_nat n) <=? result_max then Some (zfact (Z.to_nat n)) else None.
Proof.
  intros Hmax.
  pose proof (factorial_loop_spec result_max (Z.to_nat (n - 1)) 1 ltac:(simpl; lia)) as H.
  change (Z.of_nat 1 + 1) with 2 in H. change (zfact 1) with 1 in H. rewrite H.
  destruct (Z.le_gt_cases n 0) as [Hn|Hn].
  - replace (Z.to_nat (n - 1)) with 0%nat by lia.
    replace (Z.to_nat n) with 0%nat by lia. reflexivity.
  - replace (1 + Z.to_nat (n - 1))%nat with (Z.to_nat n) by lia. reflexivity.
Qed.

(** X15.  [factorial(n)] is [n!] whenever [n!] fits the result type, and
    signed overflow otherwise; for [n <= 1], negative [n] included, it is
    1.  With a [long long] result it is [n!] up to [n = 20] and overflows
    from 21 on; with an [int] result it is [n!] up to 12 and overflows from
    13 on. *)
Theorem factorial_is_n_factorial_or_overflow :
  (∀ n, factorial_ll n
        = if zfact (Z.to_nat n) <=? LLONG_MAX then Some (zfact (Z.to_nat n)) else None)
  ∧ (∀ n, factorial_int n
          = if zfact (Z.to_nat n) <=? INT_MAX then Some (zfact (Z.to_nat n)) else None)
  ∧ (∀ n, n ≤ 1 → factorial_ll n = Some 1 ∧ factorial_int n = Some 1)
  ∧ (∀ n, n ≤ 20 → factorial_ll n = Some (zfact (Z.to_nat n)))
  ∧ (∀ n, 21 ≤ n → factorial_ll n = None)
  ∧ (∀ n, n ≤ 12 → factorial_int n = Some (zfact (Z.to_nat n)))
  ∧ (∀ n, 13 ≤ n → factorial_int n = None).
Proof.
  assert (Hll : ∀ n, factorial_ll n
    = if zfact (Z.to_nat n) <=? LLONG_MAX then Some (zfact (Z.to_nat n)) else None).
  { intros n. apply factorial_loop_from_one. unfold LLONG_MAX. lia. }
  assert (Hint : ∀ n, factorial_int n
    = if zfact (Z.to_nat n) <=? INT_MAX then Some (zfact (Z.to_nat n)) else None).
  { intros n. apply factorial_loop_from_one. unfold INT_MAX. lia. }
  split; [exact Hll|]. split; [exact Hint|]. repeat split.
  - rewrite Hll. assert (Z.to_nat n = 0%nat ∨ Z.to_nat n = 1%nat) as [->| ->] by lia;
      reflexivity.
  - rewrite Hint. assert (Z.to_nat n = 0%nat ∨ Z.to_nat n = 1%nat) as [->| ->] by lia;
      reflexivity.
  - intros n Hn. rewrite Hll.
    pose proof (zfact_mono (Z.to_nat n) 20 ltac:(lia)) as Hm.
    assert (H20 : zfact 20 ≤ LLONG_MAX) by (vm_compute; discriminate).
    by rewrite (proj2 (Z.leb_le _ _)) by lia.
  - intros n Hn. rewrite Hll.
    pose proof (zfact_mono 21 (Z.to_nat n) ltac:(lia)) as Hm.
    assert (H21 : LLONG_MAX < zfact 21) by (vm_compute; reflexivity).
    by rewrite (proj2 (Z.leb_gt _ _)) by lia.
  - intros n Hn. rewrite Hint.
    pose proof (zfact_mono (Z.to_nat n) 12 ltac:(lia)) as Hm.
    assert (H12 : zfact 12 ≤ INT_MAX) by (vm_compute; discriminate).
    by rewrite (proj2 (Z.leb_le _ _)) by lia.
  - intros n Hn. rewrite Hint.
    pose proof (zfact_mono 13 (Z.to_nat n) ltac:(lia)) as Hm.
    assert (H13 : INT_MAX < zfact 13) by (vm_compute; reflexivity).
    by rewrite (proj2 (Z.leb_gt _ _)) by lia.
Qed.

End FactorialFacts.

(** * Runs of the further properties *)

Section Runs.
Local Abbreviation node_traits := (my_allocator_traits (targs := node_pool)).
Local Abbreviation node_laws := (my_allocator_lawful (targs := node_pool)).

Lemma one_node_is_first_push :
  MyContainer.push_back (elt := plain_int) (traits := node_traits)
    start_state start_container 1
  = MyContainer.Returns one_node_state one_node_container.
Proof. vm_compute. reflexivity. Qed.

Lemma one_node_represents :
  represents (laws := node_laws) one_node_state one_node_container [(4096, 1)].
Proof.
  pose proof (emplace_back_spec (laws := node_laws)
                (MyContainer.T_copy (elt := plain_int)) start_state start_container 1 []
                start_represents ltac:(vm_compute; reflexivity)) as Hspec.
  rewrite <- (push_back_is_emplace_back (elt := plain_int)) in Hspec.
  rewrite one_node_is_first_push in Hspec.
  destruct Hspec as (d & Hd & Hrep & _). injection Hd as <-. exact Hrep.
Qed.

Lemma empty_beside_one_node :
  represents (laws := node_laws) one_node_state start_container [].
Proof.
  split; [reflexivity|]. split; [apply NoDup_nil_2|]. split; [reflexivity|].
  split; [reflexivity|]. split; [constructor|]. split; [apply node_pool_ok|].
  apply alloc_inv_default. simpl. lia.
Qed.

(** X3 on a pool of [int]s, for 5 elements. *)
Lemma max_size_bounds_byte_count_witness :
  (5 ≤ MyAllocator.max_size (targs := int_pool) ↔ 5 * 4 < SIZE_MOD)
  ∧ (5 ≤ MyAllocator.max_size (targs := int_pool) → wrap (5 * 4) = 5 * 4)
  ∧ (MyAllocator.max_size (targs := int_pool) < 5 → wrap (5 * 4) < 5 * 4).
Proof.
  apply (max_size_bounds_byte_count (targs := int_pool) 5).
  - unfold SIZE_MOD. simpl. lia.
  - lia.
Defined.

(** X4 on a pool of [int]s: a request for 2^62 + 1 elements, whose byte
    size wraps to 4. *)
Lemma allocate_ignores_max_size_witness :
  MyAllocator.allocate (targs := int_pool) {| heap_brk := 4096; heap_end := 8192 |}
    MyAllocator.default_ctor 4611686018427387905
  = Allocated 4096 {| heap_brk := 4100; heap_end := 8192 |}
      {| MyAllocator.chunks_ :=
           [ {| MyAllocator.data := 4096; MyAllocator.size := 4611686018427387905;
                MyAllocator.used := 4611686018427387905 |} ] |}
  ∧ 4100 < 4096 + 4611686018427387905 * 4.
Proof.
  apply (allocate_ignores_max_size (targs := int_pool)
           {| heap_brk := 4096; heap_end := 8192 |} MyAllocator.default_ctor
           4611686018427387905 4096 {| heap_brk := 4100; heap_end := 8192 |}).
  - unfold SIZE_MOD. simpl. lia.
  - vm_compute. split; reflexivity.
  - vm_compute. discriminate.
  - constructor.
  - intros c Hc. inversion Hc.
  - vm_compute. reflexivity.
  - discriminate.
Defined.

(** X5: an [int] constructed at 4096 in an empty memory and destroyed. *)
Lemma construct_destroy_round_trip_witness :
  is_Some (({[ 4096 := 7 ]} : gmap Z Z) !! 4096)
  ∧ (∀ q, q ≠ 4096 → ({[ 4096 := 7 ]} : gmap Z Z) !! q = (∅ : gmap Z Z) !! q)
  ∧ MyAllocator.destroy ({[ 4096 := 7 ]} : gmap Z Z) 4096 = Some ∅
  ∧ MyAllocator.destroy (∅ : gmap Z Z) 4096 = None.
Proof.
  apply (construct_destroy_round_trip (fun v : Z => inr v) (∅ : gmap Z Z) 4096 7).
  - reflexivity.
  - reflexivity.
Defined.

(** X6 on the allocator after the first request, once with the element
    constructed. *)
Lemma dtor_witness :
  (is_Some (MyAllocator.dtor (targs := int_pool) ({[ 4096 := 7 ]} : gmap Z Z)
              (a_alloc after_first_request))
   ↔ ∀ p, handed (targs := int_pool) (a_alloc after_first_request) p →
          is_Some (({[ 4096 := 7 ]} : gmap Z Z) !! p))
  ∧ ∀ m' deleted,
      MyAllocator.dtor (targs := int_pool) ({[ 4096 := 7 ]} : gmap Z Z)
        (a_alloc after_first_request) = Some (m', deleted) →
      deleted = MyAllocator.data <$> MyAllocator.chunks_ (a_alloc after_first_request)
      ∧ (∀ p, handed (targs := int_pool) (a_alloc after_first_request) p → m' !! p = None)
      ∧ (∀ p, ¬ handed (targs := int_pool) (a_alloc after_first_request) p →
              m' !! p = ({[ 4096 := 7 ]} : gmap Z Z) !! p).
Proof.
  apply (dtor_needs_every_handed_slot_alive (targs := int_pool)
           ({[ 4096 := 7 ]} : gmap Z Z) (a_heap after_first_request)).
  - simpl. lia.
  - split; [repeat constructor; simpl; unfold SIZE_MOD; lia|]. simpl. lia.
Defined.




(** The same on a pool with chunks of one node, with no heap left: the
    constructor is left by [bad_alloc], and the node of the source, alive
    before, is alive no more. *)
Lemma copy_ctor_destroys_source_node :
  ∃ s' c',
    MyContainer.copy_ctor (elt := plain_int)
      (traits := my_allocator_traits (targs := {| ChunkSize := 1; sizeof_T := 16 |})) 8
      {| MyContainer.heap := {| heap_brk := 4112; heap_end := 4112 |};
         MyContainer.mem := MyContainer.mem one_node_state |}
      {| MyContainer.head_ := 4096; MyContainer.tail_ := 4096; MyContainer.size_ := 1;
         MyContainer.allocator_ :=
           {| MyAllocator.chunks_ :=
                [ {| MyAllocator.data := 4096; MyAllocator.size := 1;
                     MyAllocator.used := 1 |} ] |} |}
    = MyContainer.Throws bad_alloc s' c'
    ∧ MyContainer.mem one_node_state !! 4096
      = Some {| MyContainer.data := 1; MyContainer.next := nullptr |}
    ∧ MyContainer.mem s' !! 4096 = None.
Proof.
  eexists _, _. split; [vm_compute; reflexivity|]. split; reflexivity.
Qed.

(** X8: [my_container c({1, 2, 3}, alloc)] at the program start.  It
    returns. *)
Lemma init_list_ctor_witness :
  ∃ s' c',
    MyContainer.init_list_ctor (elt := plain_int) (traits := node_traits)
      start_state [1; 2; 3] MyAllocator.default_ctor
    = MyContainer.Returns s' c'
    ∧ Forall (λ v, T_copy_throws (ElementType := plain_int) v = None) [1; 2; 3]
    ∧ MyContainer.size c' = 3
    ∧ MyContainer.empty c' = bool_decide ([1; 2; 3] = [])
    ∧ (∀ fuel : nat, (3 < fuel)%nat →
         MyContainer.traverse fuel (MyContainer.mem s') (MyContainer.begin_ c')
           (MyContainer.end_ c') = Some (Some [1; 2; 3]))
    ∧ (∀ q, is_Some (MyContainer.mem start_state !! q) →
            MyContainer.mem s' !! q = MyContainer.mem start_state !! q).
Proof.
  pose proof (init_list_ctor_holds_the_list_or_unwinds (targs := node_pool)
                (elt := plain_int) start_state [1; 2; 3] MyAllocator.default_ctor
                node_pool_ok ltac:(simpl; lia) ltac:(intros q _; apply lookup_empty)
                ltac:(vm_compute; reflexivity)) as Hrun.
  destruct (MyContainer.init_list_ctor (elt := plain_int) (traits := node_traits)
              start_state [1; 2; 3] MyAllocator.default_ctor)
    as [s' c'|e s' c'| |] eqn:Hcall.
  - exists s', c'. split; [reflexivity|exact Hrun].
  - vm_compute in Hcall. discriminate.
  - vm_compute in Hcall. discriminate.
  - destruct Hrun.
Defined.

(** The same with an element type that refuses negative values, on the
    list {7, -1}: the copy of -1 throws after its slot was taken, and the
    destructor of [allocator_] then finds two used slots and one node. *)
Lemma init_list_ctor_undefined :
  MyContainer.init_list_ctor (elt := checked_int) (traits := node_traits)
    start_state [7; -1] MyAllocator.default_ctor
  = MyContainer.Undefined.
Proof. vm_compute. reflexivity. Qed.

(** On a pool with chunks of one node and a heap with room for one chunk,
    the second node cannot be made: the constructor is left by
    [bad_alloc], and the first node is gone. *)
Lemma init_list_ctor_bad_alloc :
  ∃ s' c',
    MyContainer.init_list_ctor (elt := plain_int)
      (traits := my_allocator_traits (targs := {| ChunkSize := 1; sizeof_T := 16 |}))
      {| MyContainer.heap := {| heap_brk := 4096; heap_end := 4112 |};
         MyContainer.mem := ∅ |}
      [1; 2] MyAllocator.default_ctor
    = MyContainer.Throws bad_alloc s' c'
    ∧ MyContainer.mem s' = ∅.
Proof.
  eexists _, _. split; [vm_compute; reflexivity|]. reflexivity.
Qed.

(** X9: the container with one node, moved from. *)
Lemma move_ctor_witness :
  MyContainer.head_ (MyContainer.move_ctor (traits := node_traits) one_node_container).1
  = MyContainer.head_ one_node_container
  ∧ MyContainer.tail_ (MyContainer.move_ctor (traits := node_traits) one_node_container).1
    = MyContainer.tail_ one_node_container
  ∧ MyContainer.size (MyContainer.move_ctor (traits := node_traits) one_node_container).1
    = MyContainer.size one_node_container
  ∧ MyContainer.traverse 2 (MyContainer.mem one_node_state)
      (MyContainer.begin_ (MyContainer.move_ctor (traits := node_traits) one_node_container).1)
      (MyContainer.end_ (MyContainer.move_ctor (traits := node_traits) one_node_container).1)
    = Some (Some [(4096, 1)].*2)
  ∧ MyContainer.head_ (MyContainer.move_ctor (traits := node_traits) one_node_container).2
    = nullptr
  ∧ MyContainer.tail_ (MyContainer.move_ctor (traits := node_traits) one_node_container).2
    = nullptr
  ∧ MyContainer.size (MyContainer.move_ctor (traits := node_traits) one_node_container).2 = 0
  ∧ MyContainer.empty (MyContainer.move_ctor (traits := node_traits) one_node_container).2
    = true
  ∧ MyContainer.traverse 2 (MyContainer.mem one_node_state)
      (MyContainer.begin_ (MyContainer.move_ctor (traits := node_traits) one_node_container).2)
      (MyContainer.end_ (MyContainer.move_ctor (traits := node_traits) one_node_container).2)
    = Some (Some []).
Proof.
  apply (move_ctor_transfers_nodes (traits := node_traits) one_node_state
           one_node_container [(4096, 1)] 2).
  - apply one_node_represents.
  - simpl. lia.
Defined.

(** X10: the container with one node move-assigned to the empty one. *)
Lemma move_assign_witness :
  ∃ s' c' o',
    MyContainer.move_assign (traits := node_traits) one_node_state two_containers 100 200
    = MyContainer.Returns s' (<[200 := o']> (<[100 := c']> two_containers))
    ∧ MyContainer.head_ c' = MyContainer.head_ one_node_container
    ∧ MyContainer.tail_ c' = MyContainer.tail_ one_node_container
    ∧ MyContainer.size_ c' = MyContainer.size_ one_node_container
    ∧ chain (MyContainer.mem s') (MyContainer.head_ c') [(4096, 1)]
    ∧ MyContainer.head_ o' = nullptr ∧ MyContainer.tail_ o' = nullptr
    ∧ MyContainer.size_ o' = 0
    ∧ (∀ q, q ∈ ([] : list (pointer * Z)).*1 → MyContainer.mem s' !! q = None)
    ∧ (∀ q, q ∉ ([] : list (pointer * Z)).*1 →
            MyContainer.mem s' !! q = MyContainer.mem one_node_state !! q).
Proof.
  apply (move_assign_transfers_nodes (laws := node_laws) one_node_state two_containers
           100 200 start_container one_node_container [] [(4096, 1)]).
  - discriminate.
  - reflexivity.
  - reflexivity.
  - apply empty_beside_one_node.
  - apply one_node_represents.
  - intros q Hq. inversion Hq.
Defined.

(** X11 on the container with one node. *)
Lemma size_empty_and_iteration_witness :
  MyContainer.size one_node_container = Z.of_nat (length [(4096, 1)])
  ∧ (MyContainer.empty one_node_container = true ↔ [(4096, 1)] = [])
  ∧ MyContainer.empty one_node_container
    = MyContainer.iterator_eq (MyContainer.begin_ one_node_container)
        (MyContainer.end_ one_node_container)
  ∧ ∀ fuel : nat, (length [(4096, 1)] < fuel)%nat →
      ∃ vs, MyContainer.traverse fuel (MyContainer.mem one_node_state)
              (MyContainer.begin_ one_node_container) (MyContainer.end_ one_node_container)
            = Some (Some vs)
        ∧ vs = [(4096, 1)].*2
        ∧ Z.of_nat (length vs) = MyContainer.size one_node_container.
Proof.
  apply (size_empty_and_iteration_agree (laws := node_laws) one_node_state
           one_node_container [(4096, 1)]).
  apply one_node_represents.
Defined.


(** X13: the destructor of the container with one node. *)
Lemma pool_teardown_witness :
  (∃ s' c',
      MyContainer.clear (traits := node_traits) one_node_state one_node_container
      = MyContainer.Returns s' c'
      ∧ MyContainer.allocator_ c' = MyContainer.allocator_ one_node_container
      ∧ ∀ q, q ∈ [(4096, 1)].*1 →
          handed (targs := node_pool) (MyContainer.allocator_ c') q
          ∧ MyContainer.mem s' !! q = None)
  ∧ MyContainer.pool_dtor (targs := node_pool) (elt := plain_int)
      one_node_state one_node_container = None.
Proof.
  apply (pool_teardown_destroys_nodes_twice (targs := node_pool) (elt := plain_int)
           one_node_state one_node_container [(4096, 1)]).
  - apply one_node_represents.
  - discriminate.
Defined.

(** X14 on a pool of [int]s: 23 requests, two full chunks and one with 3
    slots used. *)
Lemma single_requests_witness :
  ∃ ps h' a',
    serve (targs := int_pool) {| heap_brk := 4096; heap_end := 8192 |}
      MyAllocator.default_ctor (replicate (2 * Z.to_nat 10 + Z.to_nat 3) 1)
    = Some (ps, h', a')
    ∧ MyAllocator.used <$> MyAllocator.chunks_ a'
      = replicate 2 10 ++ (if decide (3 = 0) then [] else [3])
    ∧ MyAllocator.size <$> MyAllocator.chunks_ a'
      = replicate (2 + (if decide (3 = 0) then 0 else 1)) 10.
Proof.
  apply (single_requests_fill_chunks_in_order (targs := int_pool)
           {| heap_brk := 4096; heap_end := 8192 |} 2 3).
  - unfold SIZE_MOD. simpl. lia.
  - simpl. lia.
  - simpl. lia.
  - vm_compute. discriminate.
Defined.

End Runs.
